(** * Flit: a shallow embedding of the migration engine

    The Go package [flit] applies the [.sql] files of a file system to a
    database, once each, and records the SHA-256 checksum of every applied
    file name in the table [flits].  This development embeds the package
    ([Migrator.Migrate], [loadMigrations], [getCompletedMigrations], the two
    guards) and the [flit new] command as Rocq functions and proves the
    properties of the specification over them.

    Conventions: a Go [string] is a [string] (a sequence of 8-bit
    characters), a Go [error] value is an [option error] ([None] is [nil]),
    a Go map is a [gmap], and a function that talks to the database is a
    state transformer over a [World]. *)

From Stdlib Require Import ZArith List Ascii String.
From stdpp Require Import base list strings gmap sorting.

Local Open Scope Z_scope.
Local Open Scope string_scope.
Local Open Scope list_scope.
Local Set Warnings "-register-all".

(** ** Go's [error] values *)

(** The three shapes of error the package builds or receives: an error of a
    collaborator (driver, file system, context), one wrapped by
    [fmt.Errorf("...%w", err)], and one built by [errors.Join]. *)
Inductive error : Type :=
| ErrBase (msg : string)
| ErrWrap (msg : string) (cause : error)
| ErrJoin (errs : list error).

Definition joinLines : list string -> string :=
  fix go (l : list string) : string :=
    match l with
    | [] => ""
    | [s] => s
    | s :: rest => s +:+ String "010"%char (go rest)
    end.

(** [err.Error()]. *)
Fixpoint Error (e : error) : string :=
  match e with
  | ErrBase msg => msg
  | ErrWrap msg _ => msg
  | ErrJoin errs => joinLines (map Error errs)
  end.

(** The errors reachable from [e] through [Unwrap], [e] first: the tree that
    [errors.Is] and [errors.As] walk. *)
Fixpoint chain (e : error) : list error :=
  e :: match e with
       | ErrBase _ => []
       | ErrWrap _ cause => chain cause
       | ErrJoin errs => flat_map chain errs
       end.

(** [fmt.Errorf(prefix + "%w", err)] where [prefix] is the text the format
    produces before the verb [%w]. *)
Definition Errorf (prefix : string) (err : error) : error :=
  ErrWrap (prefix +:+ Error err) err.

(** [errors.Join(errs...)]: nil values are discarded, and the result is nil
    when every value is nil. *)
Definition errors_Join (errs : list (option error)) : option error :=
  match omap id errs with
  | [] => None
  | es => Some (ErrJoin es)
  end.

(** ** [crypto/sha256] and [encoding/hex] *)

Module sha256.

Definition mask32 : Z := 0xFFFFFFFF.
Definition add32 (x y : Z) : Z := Z.land (x + y) mask32.
Definition rotr (n x : Z) : Z :=
  Z.lor (Z.shiftr x n) (Z.land (Z.shiftl x (32 - n)) mask32).
Definition not32 (x : Z) : Z := Z.lxor x mask32.

Definition Ch (x y z : Z) : Z := Z.lxor (Z.land x y) (Z.land (not32 x) z).
Definition Maj (x y z : Z) : Z :=
  Z.lxor (Z.lxor (Z.land x y) (Z.land x z)) (Z.land y z).
Definition bigSigma0 (x : Z) : Z :=
  Z.lxor (Z.lxor (rotr 2 x) (rotr 13 x)) (rotr 22 x).
Definition bigSigma1 (x : Z) : Z :=
  Z.lxor (Z.lxor (rotr 6 x) (rotr 11 x)) (rotr 25 x).
Definition smallSigma0 (x : Z) : Z :=
  Z.lxor (Z.lxor (rotr 7 x) (rotr 18 x)) (Z.shiftr x 3).
Definition smallSigma1 (x : Z) : Z :=
  Z.lxor (Z.lxor (rotr 17 x) (rotr 19 x)) (Z.shiftr x 10).

(** The first [n] primes, by trial division. *)
Definition isPrime (p : Z) : bool :=
  forallb (fun d => negb (Z.eqb (p mod d) 0)) (seqZ 2 (p - 2)).
Definition primes (n : nat) : list Z :=
  firstn n (filter (fun p => Is_true (isPrime p)) (seqZ 2 400)).

(** The integer part of the cube root of [x], for [0 <= x < 2^108]. *)
Definition cbrt (x : Z) : Z :=
  fold_left (fun r b => let r' := r + Z.shiftl 1 b in
                        if Z.leb (r' * r' * r') x then r' else r)
    (reverse (seqZ 0 36)) 0.

(** The round constants: the first thirty-two bits of the fractional parts
    of the cube roots of the first sixty-four primes. *)
Definition K : list Z :=
  Eval vm_compute in
    map (fun p => Z.land (cbrt (Z.shiftl p 96)) mask32) (primes 64).

(** The initial hash value: the same bits of the square roots of the first
    eight primes. *)
Definition init : list Z :=
  Eval vm_compute in
    map (fun p => Z.land (Z.sqrt (Z.shiftl p 64)) mask32) (primes 8).

(** Big-endian encodings. *)
Definition be32 (b0 b1 b2 b3 : Z) : Z :=
  Z.lor (Z.lor (Z.shiftl b0 24) (Z.shiftl b1 16)) (Z.lor (Z.shiftl b2 8) b3).
Definition bytes32 (x : Z) : list Z :=
  [ Z.land (Z.shiftr x 24) 0xFF; Z.land (Z.shiftr x 16) 0xFF;
    Z.land (Z.shiftr x 8) 0xFF; Z.land x 0xFF ].
Definition bytes64 (x : Z) : list Z :=
  bytes32 (Z.shiftr x 32) ++ bytes32 (Z.land x mask32).

(** The message followed by the bit 1, zeros up to 56 modulo 64 bytes, and
    the length of the message in bits on eight bytes. *)
Definition pad (msg : list Z) : list Z :=
  let len := Z.of_nat (length msg) in
  let zeros := Z.to_nat ((55 - len) mod 64) in
  msg ++ 0x80 :: repeat 0 zeros ++ bytes64 (8 * len).

Fixpoint words (bs : list Z) : list Z :=
  match bs with
  | b0 :: b1 :: b2 :: b3 :: rest => be32 b0 b1 b2 b3 :: words rest
  | _ => []
  end.

(** The message schedule, newest word first: [rev] of W_0 .. W_t. *)
Fixpoint schedule (n : nat) (rw : list Z) : list Z :=
  match n with
  | O => rw
  | S n' =>
      let w := add32 (add32 (smallSigma1 (nth 1 rw 0)) (nth 6 rw 0))
                     (add32 (smallSigma0 (nth 14 rw 0)) (nth 15 rw 0)) in
      schedule n' (w :: rw)
  end.

Record regs : Type :=
  Regs { ra : Z; rb : Z; rc : Z; rd : Z; re : Z; rf : Z; rg : Z; rh : Z }.

Definition round (s : regs) (kw : Z * Z) : regs :=
  let t1 := add32 (add32 (add32 (rh s) (bigSigma1 (re s)))
                         (add32 (Ch (re s) (rf s) (rg s)) (fst kw))) (snd kw) in
  let t2 := add32 (bigSigma0 (ra s)) (Maj (ra s) (rb s) (rc s)) in
  Regs (add32 t1 t2) (ra s) (rb s) (rc s) (add32 (rd s) t1) (re s) (rf s) (rg s).

Definition toRegs (h : list Z) : regs :=
  Regs (nth 0 h 0) (nth 1 h 0) (nth 2 h 0) (nth 3 h 0)
       (nth 4 h 0) (nth 5 h 0) (nth 6 h 0) (nth 7 h 0).
Definition ofRegs (s : regs) : list Z :=
  [ra s; rb s; rc s; rd s; re s; rf s; rg s; rh s].
Definition addRegs (s t : regs) : regs :=
  Regs (add32 (ra s) (ra t)) (add32 (rb s) (rb t)) (add32 (rc s) (rc t))
       (add32 (rd s) (rd t)) (add32 (re s) (re t)) (add32 (rf s) (rf t))
       (add32 (rg s) (rg t)) (add32 (rh s) (rh t)).

(** One 64-byte block. *)
Definition block (h : regs) (bs : list Z) : regs :=
  let w := rev (schedule 48 (rev (words bs))) in
  addRegs h (fold_left round (combine K w) h).

Fixpoint blocks (n : nat) (h : regs) (bs : list Z) : regs :=
  match n with
  | O => h
  | S n' => blocks n' (block h (firstn 64 bs)) (skipn 64 bs)
  end.

(** [sha256.Sum256(data)]: the 32 bytes of the digest. *)
Definition Sum256 (data : list Z) : list Z :=
  let p := pad data in
  flat_map bytes32 (ofRegs (blocks (length p / 64)%nat (toRegs init) p)).

End sha256.

(** [[]byte(s)]: the bytes of a Go string. *)
Definition bytesOf (s : string) : list Z :=
  map (fun c => Z.of_N (N_of_ascii c)) (list_ascii_of_string s).

Module hex.

Definition hextable : string := "0123456789abcdef".

Definition digit (n : Z) : ascii :=
  match String.get (Z.to_nat n) hextable with
  | Some c => c
  | None => "0"%char
  end.

(** [hex.EncodeToString(src)]: two characters of [hextable] per byte. *)
Fixpoint EncodeToString (src : list Z) : string :=
  match src with
  | [] => ""
  | b :: rest =>
      String (digit (Z.shiftr b 4)) (String (digit (Z.land b 0x0F)) (EncodeToString rest))
  end.

End hex.

(** The value of a character of [hex.hextable], to read an encoding back. *)
Definition undigit (c : ascii) : Z :=
  match String.index 0 (String c "") hex.hextable with
  | Some n => Z.of_nat n
  | None => 0
  end.

(** The checksum of a file name, as [loadMigrations] computes it:
    [hex.EncodeToString(sha256.Sum256([]byte(name)))]. *)
Definition fingerprint (name : string) : string :=
  hex.EncodeToString (sha256.Sum256 (bytesOf name)).

(** ** The collaborators: context, file system, database *)

(** A [context.Context], as far as the package can observe it: the value of
    [ctx.Err()], non-nil once the context is cancelled or timed out. *)
Record context : Type := Context { ctxErr : option error }.

(** An [fs.FS] seen through [fs.Glob] and [fs.ReadFile]. *)
Record FS : Type := {
  fs_Glob : string -> list string + error;
  fs_ReadFile : string -> string + error
}.

(** The [*sql.Rows] of a query: what each [rows.Scan] yields, in order, and
    the value of [rows.Err()] once [rows.Next()] has returned false. *)
Record Rows : Type := {
  rowsItems : list (string + error);
  rowsErr : option error
}.

(** The [database/sql] calls the package makes, as functions of the state
    [DB] of the database server and connection. *)
Record Driver (DB : Type) : Type := {
  db_Conn : context -> DB -> DB * option error;
  conn_ExecContext : context -> string -> list string -> DB -> DB * option error;
  conn_QueryContext : context -> string -> DB -> DB * (Rows + error);
  conn_Close : DB -> DB
}.
Arguments db_Conn {DB} _ _ _.
Arguments conn_ExecContext {DB} _ _ _ _ _.
Arguments conn_QueryContext {DB} _ _ _ _.
Arguments conn_Close {DB} _ _.

(** The places of the source that send a statement to the connection. *)
Inductive site : Type :=
| AtLock                      (* GuardMySQL: SELECT GET_LOCK('flit', -1) *)
| AtRelease                   (* GuardMySQL: SELECT RELEASE_LOCK('flit') *)
| AtCreate                    (* Migrate: CREATE TABLE IF NOT EXISTS flits *)
| AtSelect                    (* getCompletedMigrations: SELECT sum FROM flits *)
| AtApply (name : string)     (* Migrate: the body of the migration [name] *)
| AtRecord (name : string).   (* Migrate: INSERT INTO flits of [name]'s sum *)

(** What a run does to the outside, in order. *)
Inductive event : Type :=
| EvConn (err : option error)
| EvExec (at_ : site) (sql : string) (args : list string) (err : option error)
| EvQuery (at_ : site) (sql : string) (err : option error)
| EvClose.

(** The state a call of [Migrate] works on: the database, the mutex of the
    migrator's default guard ([true] while some goroutine holds it), the
    named result [applied] that the closure passed to the guard appends to,
    and the trace of the calls made so far. *)
Record World (DB : Type) : Type := MkWorld {
  wdb : DB;
  wmu : bool;
  wapplied : list string;
  wlog : list event
}.
Arguments MkWorld {DB} _ _ _ _.
Arguments wdb {DB} _.
Arguments wmu {DB} _.
Arguments wapplied {DB} _.
Arguments wlog {DB} _.

(** How a call ends: it returns, it panics, or it never gets past
    [sync.Mutex.Lock] because the mutex is held. *)
Inductive outcome (A : Type) : Type :=
| Ret (a : A)
| Panic (e : error)
| Blocked.
Arguments Ret {A} _.
Arguments Panic {A} _.
Arguments Blocked {A}.

Definition M (DB A : Type) : Type := World DB -> World DB * outcome A.

Definition ret {DB A : Type} (a : A) : M DB A := fun w => (w, Ret a).
Definition panic {DB A : Type} (e : error) : M DB A := fun w => (w, Panic e).
Definition bind {DB A B : Type} (c : M DB A) (k : A -> M DB B) : M DB B :=
  fun w =>
    match c w with
    | (w', Ret a) => k a w'
    | (w', Panic e) => (w', Panic e)
    | (w', Blocked) => (w', Blocked)
    end.

Notation "'do' x <- c ; k" := (bind c (fun x => k))
  (at level 10, x name, c at level 100, k at level 200).

(** ** The package *)

Definition lockSQL : string := "SELECT GET_LOCK('flit', -1)".
Definition releaseSQL : string := "SELECT RELEASE_LOCK('flit')".
Definition createSQL : string :=
  "CREATE TABLE IF NOT EXISTS flits (sum CHAR(64) PRIMARY KEY);".
Definition selectSQL : string := "SELECT sum FROM flits".
Definition insertSQL : string := "INSERT INTO flits (sum) VALUES (?)".

Record migration : Type := Migration {
  Sum : string;   (* hex(sha256(Name)) *)
  Name : string;
  SQL : string
}.

(** [strings.Compare]. *)
Definition strings_Compare (a b : string) : Z :=
  match String.compare a b with
  | Lt => -1
  | Eq => 0
  | Gt => 1
  end.

(** [slices.Contains]. *)
Fixpoint slices_Contains (s : list string) (v : string) : bool :=
  match s with
  | [] => false
  | x :: rest => if String.eqb x v then true else slices_Contains rest v
  end.

(** The order [slices.SortFunc] sorts by, for a comparison function [cmp]:
    [a] may stand before [b] when [cmp a b <= 0]. *)
Definition cmpLe {A : Type} (cmp : A -> A -> Z) (a b : A) : Prop := cmp a b <= 0.

Global Instance cmpLe_dec {A : Type} (cmp : A -> A -> Z) : RelDecision (cmpLe cmp) :=
  fun a b => decide (cmp a b <= 0).

(** [slices.SortFunc(x, cmp)]: the slice sorted in ascending order of [cmp].
    Go does not promise a stable sort; [SortFunc_unique] below shows that on
    slices whose elements [cmp] tells apart, as every slice [Migrate] sorts
    is, the result does not depend on the algorithm. *)
Definition slices_SortFunc {A : Type} (x : list A) (cmp : A -> A -> Z) : list A :=
  merge_sort (cmpLe cmp) x.

Definition byName (a b : migration) : Z := strings_Compare (Name a) (Name b).

Section Engine.

Context {DB : Type} (drv : Driver DB).

Definition GuardFunc : Type :=
  context -> (context -> M DB (option error)) -> M DB (option error).

(** A [Migrator]; its field [db] is the database of the [World]. *)
Record Migrator : Type := {
  m_fs : FS;
  m_glob : string;
  m_guard : GuardFunc
}.

Definition logEvent (ev : event) (w : World DB) : World DB :=
  MkWorld (wdb w) (wmu w) (wapplied w) (wlog w ++ [ev]).

(** [m.db.Conn(ctx)] *)
Definition Conn (ctx : context) : M DB (option error) := fun w =>
  let '(db', err) := db_Conn drv ctx (wdb w) in
  (logEvent (EvConn err) (MkWorld db' (wmu w) (wapplied w) (wlog w)), Ret err).

(** [conn.ExecContext(ctx, query, args...)], result discarded. *)
Definition ExecContext (at_ : site) (ctx : context) (query : string)
    (args : list string) : M DB (option error) := fun w =>
  let '(db', err) := conn_ExecContext drv ctx query args (wdb w) in
  (logEvent (EvExec at_ query args err)
     (MkWorld db' (wmu w) (wapplied w) (wlog w)), Ret err).

(** [conn.QueryContext(ctx, query)] *)
Definition QueryContext (at_ : site) (ctx : context) (query : string)
    : M DB (Rows + error) := fun w =>
  let '(db', r) := conn_QueryContext drv ctx query (wdb w) in
  (logEvent (EvQuery at_ query (match r with inl _ => None | inr e => Some e end))
     (MkWorld db' (wmu w) (wapplied w) (wlog w)), Ret r).

(** [conn.Close()], its error discarded. *)
Definition Close (w : World DB) : World DB :=
  logEvent EvClose (MkWorld (conn_Close drv (wdb w)) (wmu w) (wapplied w) (wlog w)).

(** [applied = append(applied, name)] *)
Definition appendApplied (name : string) : M DB unit := fun w =>
  (MkWorld (wdb w) (wmu w) (wapplied w ++ [name]) (wlog w), Ret tt).

(** *** [GuardMySQL] *)
Definition GuardMySQL : GuardFunc := fun ctx f =>
  do e <- ExecContext AtLock ctx lockSQL [];
  match e with
  | Some err => ret (Some err)
  | None => fun w =>
      (* the deferred function runs when [f] returns and when it panics *)
      match f ctx w with
      | (w1, Ret err) =>
          match ExecContext AtRelease ctx releaseSQL [] w1 with
          | (w2, Ret re) => (w2, Ret (errors_Join [err; re]))
          | (w2, Panic p) => (w2, Panic p)
          | (w2, Blocked) => (w2, Blocked)
          end
      | (w1, Panic p) =>
          (fst (ExecContext AtRelease ctx releaseSQL [] w1), Panic p)
      | (w1, Blocked) => (w1, Blocked)
      end
  end.

(** *** [mutexGuard.Guard], the default guard *)
(** [g.Unlock()]; unlocking a mutex that is not locked is a fatal error of
    the runtime, which ends the call as a panic does. *)
Definition Unlock (w : World DB) : World DB * outcome unit :=
  if wmu w
  then (MkWorld (wdb w) false (wapplied w) (wlog w), Ret tt)
  else (w, Panic (ErrBase "sync: unlock of unlocked mutex")).

Definition mutexGuard_Guard : GuardFunc := fun ctx f w =>
  if wmu w
  then (w, Blocked)   (* g.Lock() waits for the holder, whatever [ctx] says *)
  else
    match f ctx (MkWorld (wdb w) true (wapplied w) (wlog w)) with
    | (w1, Ret err) =>
        match Unlock w1 with
        | (w2, Ret _) => (w2, Ret err)
        | (w2, Panic p) => (w2, Panic p)
        | (w2, Blocked) => (w2, Blocked)
        end
    | (w1, Panic p) =>
        match Unlock w1 with
        | (w2, Panic p') => (w2, Panic p')
        | (w2, _) => (w2, Panic p)
        end
    | (w1, Blocked) => (w1, Blocked)
    end.

(** *** [getCompletedMigrations] *)
Fixpoint scanRows (items : list (string + error)) (completed : list string)
    : list string + error :=
  match items with
  | [] => inl completed
  | inl sum :: rest => scanRows rest (completed ++ [sum])
  | inr err :: _ => inr err
  end.

Definition getCompletedMigrations (ctx : context)
    : M DB (list string * option error) :=
  do r <- QueryContext AtSelect ctx selectSQL;
  match r with
  | inr err => panic err
  | inl rows =>
      match scanRows (rowsItems rows) [] with
      | inr err => ret ([], Some err)
      | inl completed =>
          match rowsErr rows with
          | Some err => ret ([], Some err)
          | None => ret (completed, None)
          end
      end
  end.

(** *** [Migrator.loadMigrations] *)
Fixpoint loadFiles (fsys : FS) (names : list string)
    (stmts : gmap string migration) : gmap string migration + error :=
  match names with
  | [] => inl stmts
  | name :: rest =>
      match fs_ReadFile fsys name with
      | inr err => inr err
      | inl data =>
          let hexsum := hex.EncodeToString (sha256.Sum256 (bytesOf name)) in
          loadFiles fsys rest
            (<[hexsum := Migration hexsum name data]> stmts)
      end
  end.

Definition loadMigrations (m : Migrator) : gmap string migration + error :=
  match fs_Glob (m_fs m) (m_glob m) with
  | inr err => inr err
  | inl names => loadFiles (m_fs m) names ∅
  end.

(** *** [Migrator.Migrate] *)

(** The loop [for sum, m := range migrations] that collects the pending
    migrations, over the pairs in the order the runtime yields them. *)
Definition collectPending (completed : list string)
    (pairs : list (string * migration)) : list migration :=
  fold_left
    (fun pending p => if slices_Contains completed (fst p)
                      then pending else pending ++ [snd p])
    pairs [].

(** The loop [for _, m := range pending]. *)
Fixpoint applyPending (ctx : context) (pending : list migration)
    : M DB (option error) :=
  match pending with
  | [] => ret None
  | m :: rest =>
      do e <- ExecContext (AtApply (Name m)) ctx (SQL m) [];
      match e with
      | Some err => ret (Some (Errorf ("apply " +:+ Name m +:+ ": ") err))
      | None =>
          do e <- ExecContext (AtRecord (Name m)) ctx insertSQL [Sum m];
          match e with
          | Some err => ret (Some (Errorf ("record " +:+ Name m +:+ ": ") err))
          | None => do _u <- appendApplied (Name m); applyPending ctx rest
          end
      end
  end.

(** The closure [Migrate] passes to the guard.  [range] is the order in
    which the runtime iterates over the map, which Go leaves unspecified:
    some permutation of the map's entries (see [RangeOrder]). *)
Definition criticalSection (migrations : gmap string migration)
    (range : gmap string migration -> list (string * migration))
    (ctx : context) : M DB (option error) :=
  do e <- ExecContext AtCreate ctx createSQL [];
  match e with
  | Some err => ret (Some (Errorf "create flits table: " err))
  | None =>
      do r <- getCompletedMigrations ctx;
      match r with
      | (_, Some err) => ret (Some err)
      | (completed, None) =>
          let pending := collectPending completed (range migrations) in
          let pending := slices_SortFunc pending byName in
          applyPending ctx pending
      end
  end.

Definition Migrate (m : Migrator)
    (range : gmap string migration -> list (string * migration))
    (ctx : context) : M DB (list string * option error) := fun w =>
  let w := MkWorld (wdb w) (wmu w) [] (wlog w) in   (* applied = nil *)
  match loadMigrations m with
  | inr err => (w, Ret (wapplied w, Some err))
  | inl migrations =>
      match Conn ctx w with
      | (w1, Ret (Some err)) => (w1, Ret (wapplied w1, Some err))
      | (w1, Ret None) =>
          (* defer conn.Close() *)
          match m_guard m ctx (criticalSection migrations range) w1 with
          | (w2, Ret err) => let w3 := Close w2 in (w3, Ret (wapplied w3, err))
          | (w2, Panic p) => (Close w2, Panic p)
          | (w2, Blocked) => (w2, Blocked)
          end
      | (w1, Panic p) => (w1, Panic p)
      | (w1, Blocked) => (w1, Blocked)
      end
  end.

(** *** [New], [WithGlob], [WithGuard] *)
Definition ConfigOption : Type := Migrator -> Migrator.

Definition WithGlob (glob : string) : ConfigOption :=
  fun c => {| m_fs := m_fs c; m_glob := glob; m_guard := m_guard c |}.
Definition WithGuard (g : GuardFunc) : ConfigOption :=
  fun c => {| m_fs := m_fs c; m_glob := m_glob c; m_guard := g |}.

Definition New (fsys : FS) (options : list ConfigOption) : Migrator :=
  fold_left (fun m o => o m) options
    {| m_fs := fsys; m_glob := "*.sql"; m_guard := mutexGuard_Guard |}.

End Engine.

Arguments GuardFunc DB : clear implicits.
Arguments Migrator DB : clear implicits.
Arguments ConfigOption DB : clear implicits.

(** The iteration orders of [range] over a map: Go yields every entry once,
    in an order it does not specify. *)
Definition RangeOrder (range : gmap string migration -> list (string * migration)) : Prop :=
  forall m, range m ≡ₚ map_to_list m.

(** The guards of the package. *)
Inductive KnownGuard {DB : Type} (drv : Driver DB) : GuardFunc DB -> Prop :=
| known_mutexGuard : KnownGuard drv mutexGuard_Guard
| known_GuardMySQL : KnownGuard drv (GuardMySQL drv).

(** ** An in-memory database

    A small driver in the role the test suite gives to sqlite: the table
    [flits] with its primary key, a list of the other statements executed,
    and a server that rejects the statements of [rejects].  Every call
    checks [ctx] first, as [database/sql] does. *)
Module MemDB.

Record t : Type := Mk {
  flits : option (list string);   (* [None]: the table does not exist *)
  executed : list string
}.

Definition empty : t := Mk None [].

Definition exec (rejects : string -> option error)
    (ctx : context) (sql : string) (args : list string) (db : t)
    : t * option error :=
  match ctxErr ctx with
  | Some e => (db, Some e)
  | None =>
      match rejects sql with
      | Some e => (db, Some e)
      | None =>
          if String.eqb sql createSQL then
            (Mk (Some (default [] (flits db))) (executed db), None)
          else if String.eqb sql insertSQL then
            match flits db, args with
            | Some l, [s] =>
                if slices_Contains l s
                then (db, Some (ErrBase "UNIQUE constraint failed: flits.sum"))
                else (Mk (Some (l ++ [s])) (executed db), None)
            | _, _ => (db, Some (ErrBase "no such table: flits"))
            end
          else if String.eqb sql lockSQL || String.eqb sql releaseSQL then
            (db, None)
          else (Mk (flits db) (executed db ++ [sql]), None)
      end
  end.

Definition query (rejects : string -> option error)
    (ctx : context) (sql : string) (db : t) : t * (Rows + error) :=
  match ctxErr ctx with
  | Some e => (db, inr e)
  | None =>
      match rejects sql with
      | Some e => (db, inr e)
      | None =>
          match flits db with
          | Some l =>
              if String.eqb sql selectSQL
              then (db, inl {| rowsItems := map inl l; rowsErr := None |})
              else (db, inr (ErrBase "unsupported query"))
          | None => (db, inr (ErrBase "no such table: flits"))
          end
      end
  end.

Definition driver (rejects : string -> option error) : Driver t := {|
  db_Conn := fun ctx db => (db, ctxErr ctx);
  conn_ExecContext := exec rejects;
  conn_QueryContext := query rejects;
  conn_Close := fun db => db
|}.

(** The checksums held by [flits]. *)
Definition recorded (db : t) : list string := default [] (flits db).

Definition accepts : string -> option error := fun _ => None.

Definition rejecting (bad : string) (e : error) : string -> option error :=
  fun sql => if String.eqb sql bad then Some e else None.

(** A file system holding the given files at its root; the pattern is not
    interpreted: every file matches. *)
Definition dirFS (files : list (string * string)) : FS := {|
  fs_Glob := fun _ => inl (map fst files);
  fs_ReadFile := fun name =>
    match find (fun p => String.eqb (fst p) name) files with
    | Some p => inl (snd p)
    | None => inr (ErrBase ("open " +:+ name +:+ ": file does not exist"))
    end
|}.

Definition background : context := Context None.
Definition cancelled : context := Context (Some (ErrBase "context canceled")).

Definition fresh : World t := MkWorld empty false [] [].

End MemDB.

(** The runs of the package's tests, on the in-memory database. *)
Definition exampleFS : FS :=
  MemDB.dirFS [("001-first.sql", "CREATE TABLE t(id INT)");
               ("002-second.sql", "INSERT INTO t VALUES (1)")].

Definition lexicalOrderFS : FS :=
  MemDB.dirFS [("002-first.sql", "CREATE TABLE a(id INT)");
               ("01-second.sql", "CREATE TABLE b(id INT)")].

(** [exampleFS] after an edit of the body of its second file. *)
Definition editedFS : FS :=
  MemDB.dirFS [("001-first.sql", "CREATE TABLE t(id INT)");
               ("002-second.sql", "INSERT INTO t VALUES (2)")].

Definition fiveFS : FS :=
  MemDB.dirFS [("001.sql", "CREATE TABLE a(id INT)");
               ("002.sql", "CREATE TABLE b(id INT)");
               ("003.sql", "CREATE TABLE c(id INT");
               ("004.sql", "CREATE TABLE d(id INT)");
               ("005.sql", "CREATE TABLE e(id INT)")].

Definition migrateMem (rejects : string -> option error) (fsys : FS)
    (options : list (ConfigOption MemDB.t)) (w : World MemDB.t)
    : World MemDB.t * outcome (list string * option error) :=
  Migrate (MemDB.driver rejects) (New fsys options) map_to_list MemDB.background w.


(** ** Reading the trace of a run *)

(** The names of the migrations whose body was sent to the database, in the
    order it was sent. *)
Definition appliedOrder (evs : list event) : list string :=
  omap (fun ev => match ev with
                  | EvExec (AtApply name) _ _ _ => Some name
                  | _ => None
                  end) evs.

(** The names of the migrations whose checksum was written to [flits]. *)
Definition recordedNames (evs : list event) : list string :=
  omap (fun ev => match ev with
                  | EvExec (AtRecord name) _ _ None => Some name
                  | _ => None
                  end) evs.

(** The names of the migrations whose body the database accepted. *)
Definition executedNames (evs : list event) : list string :=
  omap (fun ev => match ev with
                  | EvExec (AtApply name) _ _ None => Some name
                  | _ => None
                  end) evs.

(** An event of the loop over the pending migrations. *)
Definition unitEvent (ev : event) : bool :=
  match ev with
  | EvExec (AtApply _) _ _ _ | EvExec (AtRecord _) _ _ _ => true
  | _ => false
  end.

(** A statement of the loop that the database refused. *)
Definition failedUnitEvent (ev : event) : bool :=
  match ev with
  | EvExec (AtApply _) _ _ (Some _) | EvExec (AtRecord _) _ _ (Some _) => true
  | _ => false
  end.

(** The two statements of a migration that goes through. *)
Definition okEvents (u : migration) : list event :=
  [EvExec (AtApply (Name u)) (SQL u) [] None;
   EvExec (AtRecord (Name u)) insertSQL [Sum u] None].

(** The runs of the loop [for _, m := range pending]: the names appended to
    [applied], the events, and the error returned. *)
Inductive LoopRun : list migration -> list string -> list event -> option error -> Prop :=
| LoopRun_done : LoopRun [] [] [] None
| LoopRun_apply_fails u rest cause :
    LoopRun (u :: rest) []
      [EvExec (AtApply (Name u)) (SQL u) [] (Some cause)]
      (Some (Errorf ("apply " +:+ Name u +:+ ": ") cause))
| LoopRun_record_fails u rest cause :
    LoopRun (u :: rest) []
      [EvExec (AtApply (Name u)) (SQL u) [] None;
       EvExec (AtRecord (Name u)) insertSQL [Sum u] (Some cause)]
      (Some (Errorf ("record " +:+ Name u +:+ ": ") cause))
| LoopRun_next u rest names evs r :
    LoopRun rest names evs r ->
    LoopRun (u :: rest) (Name u :: names) (okEvents u ++ evs) r.

(** Every entry of the map [loadMigrations] builds sits under the checksum of
    its name. *)
Definition WellKeyed (stmts : gmap string migration) : Prop :=
  forall k u, stmts !! k = Some u -> Sum u = k /\ k = fingerprint (Name u).

(** The slices the loop of [Migrate] may run over: the sorted pending
    migrations for some content of [flits], or nothing when the run does not
    get that far. *)
Definition PendingOf (migrations : gmap string migration)
    (range : gmap string migration -> list (string * migration))
    (pending : list migration) : Prop :=
  pending = [] \/
  exists completed,
    pending = slices_SortFunc (collectPending completed (range migrations)) byName.

(** Names in strictly ascending byte order. *)
Definition nameLt (a b : string) : Prop := strings_Compare a b < 0.

(** ** Assumptions on the database *)

(** A driver honours cancellation when every call made with a cancelled
    context fails with the context's error and changes nothing. *)
Record HonoursCtx {DB : Type} (drv : Driver DB) : Prop := {
  honours_Conn : forall ctx e db,
    ctxErr ctx = Some e -> db_Conn drv ctx db = (db, Some e);
  honours_Exec : forall ctx e sql args db,
    ctxErr ctx = Some e -> conn_ExecContext drv ctx sql args db = (db, Some e);
  honours_Query : forall ctx e sql db,
    ctxErr ctx = Some e -> conn_QueryContext drv ctx sql db = (db, inr e)
}.

(** A guard returns on cancellation when, called with a cancelled context,
    whatever the state of the locks, it returns an error and the closure of
    [Migrate] has applied nothing. *)
Definition ReturnsOnCancel {DB : Type} (drv : Driver DB) (g : GuardFunc DB) : Prop :=
  forall migrations range ctx e w,
    ctxErr ctx = Some e ->
    exists w' err evs,
      g ctx (criticalSection drv migrations range) w = (w', Ret (Some err)) /\
      wapplied w' = wapplied w /\
      wlog w' = wlog w ++ evs /\ appliedOrder evs = [].

(** [drv] keeping, beside its own state, the context each of its calls was
    given, in the order of the calls. *)
Definition recording {DB : Type} (drv : Driver DB) : Driver (DB * list context) := {|
  db_Conn := fun ctx s =>
    ((db_Conn drv ctx s.1).1, s.2 ++ [ctx], (db_Conn drv ctx s.1).2);
  conn_ExecContext := fun ctx sql args s =>
    ((conn_ExecContext drv ctx sql args s.1).1, s.2 ++ [ctx],
     (conn_ExecContext drv ctx sql args s.1).2);
  conn_QueryContext := fun ctx sql s =>
    ((conn_QueryContext drv ctx sql s.1).1, s.2 ++ [ctx],
     (conn_QueryContext drv ctx sql s.1).2);
  conn_Close := fun s => (conn_Close drv s.1, s.2)
|}.

(** The events that are calls taking a context: all but [conn.Close()]. *)
Definition takesCtx (ev : event) : bool :=
  match ev with
  | EvClose => false
  | _ => true
  end.

(** From [w] to [w'], every call made on the recording driver was given
    [ctx]: one context was recorded for each call of the trace, and each is
    [ctx]. *)
Definition Carries {DB : Type} (ctx : context)
    (w w' : World (DB * list context)) : Prop :=
  exists evs,
    wlog w' = wlog w ++ evs /\
    (wdb w').2 = (wdb w).2 ++ replicate (length (List.filter takesCtx evs)) ctx.

Definition CarriesM {DB A : Type} (ctx : context)
    (c : M (DB * list context) A) : Prop :=
  forall w w' o, c w = (w', o) -> Carries ctx w w'.

(** The table [flits] behaves as a table: [recorded db] is the set of sums it
    holds.  A successful INSERT adds its sum, a SELECT that goes through
    returns exactly the sums held, and no statement among [safe] (nor the
    package's own) removes a sum. *)
Record TrackingStore {DB : Type} (drv : Driver DB)
    (recorded : DB -> list string) (safe : string -> Prop) : Prop := {
  ts_conn : forall ctx db, recorded db ⊆ recorded (fst (db_Conn drv ctx db));
  ts_close : forall db, recorded db ⊆ recorded (conn_Close drv db);
  ts_create : forall ctx db,
    recorded db ⊆ recorded (fst (conn_ExecContext drv ctx createSQL [] db));
  ts_query : forall ctx db,
    recorded db ⊆ recorded (fst (conn_QueryContext drv ctx selectSQL db));
  ts_body : forall ctx sql db, safe sql ->
    recorded db ⊆ recorded (fst (conn_ExecContext drv ctx sql [] db));
  ts_insert : forall ctx sum db,
    recorded db ⊆ recorded (fst (conn_ExecContext drv ctx insertSQL [sum] db));
  ts_inserted : forall ctx sum db db',
    conn_ExecContext drv ctx insertSQL [sum] db = (db', None) ->
    sum ∈ recorded db';
  ts_select_sound : forall ctx db db' rows sum,
    conn_QueryContext drv ctx selectSQL db = (db', inl rows) ->
    inl sum ∈ rowsItems rows -> sum ∈ recorded db;
  ts_select_complete : forall ctx db db' rows sum,
    conn_QueryContext drv ctx selectSQL db = (db', inl rows) ->
    sum ∈ recorded db -> inl sum ∈ rowsItems rows ∨
      rowsErr rows <> None ∨ (exists e, inr e ∈ rowsItems rows)
}.

(** ** The command [flit new] *)

Module Cmd.

(** A [time.Time], broken down as [Format] reads it. *)
Record Time : Type := {
  year : Z; month : Z; day : Z; hour : Z; minute : Z; second : Z
}.

Definition ValidTime (t : Time) : Prop :=
  0 <= year t <= 9999 /\ 1 <= month t <= 12 /\ 1 <= day t <= 31 /\
  0 <= hour t <= 23 /\ 0 <= minute t <= 59 /\ 0 <= second t <= 59.

Definition digitChar (d : Z) : ascii := ascii_of_N (48 + Z.to_N d).

(** The decimal digits of [u >= 0], most significant first. *)
Fixpoint decimal (fuel : nat) (u : Z) (acc : string) : string :=
  match fuel with
  | O => acc
  | S fuel' =>
      let acc' := String (digitChar (u mod 10)) acc in
      if Z.eqb (u / 10) 0 then acc' else decimal fuel' (u / 10) acc'
  end.

Fixpoint zeros (n : nat) : string :=
  match n with
  | O => ""
  | S n' => String "0"%char (zeros n')
  end.

(** [appendInt] of package [time]: [x] in decimal, padded with zeros to
    [width] digits. *)
Definition appendInt (x : Z) (width : nat) : string :=
  let u := Z.abs x in
  let ds := decimal (S (Z.to_nat (Z.log2 u))) u "" in
  (if Z.ltb x 0 then "-" else "") +:+ zeros (width - String.length ds) +:+ ds.

(** [t.Format("20060102150405")] *)
Definition Format (t : Time) : string :=
  appendInt (year t) 4 +:+ appendInt (month t) 2 +:+ appendInt (day t) 2 +:+
  appendInt (hour t) 2 +:+ appendInt (minute t) 2 +:+ appendInt (second t) 2.

(** The layout [20060102150405] spelled out: the year on four digits,
    then month, day, hour, minute and second on two digits each. *)
Definition two (x : Z) : string :=
  String (digitChar (x / 10)) (String (digitChar (x mod 10)) "").
Definition four (x : Z) : string :=
  String (digitChar (x / 1000)) (String (digitChar (x / 100 mod 10))
    (String (digitChar (x / 10 mod 10)) (String (digitChar (x mod 10)) ""))).
Definition YYYYMMDDHHMMSS (t : Time) : string :=
  four (year t) +:+ two (month t) +:+ two (day t) +:+
  two (hour t) +:+ two (minute t) +:+ two (second t).

(** What the command sees of the operating system: its arguments, the
    clock, [os.Stat] (is the path a directory?), whether [os.WriteFile] and
    the write to standard output go through, and [filepath.Join]. *)
Record OS : Type := {
  os_Args : list string;
  time_Now : Time;
  os_Stat : string -> bool + error;
  os_WriteFile : string -> string -> Z -> option error;
  stdout_Write : string -> option error;
  filepath_Join : string -> string -> string
}.

(** What the command does: the text written to the two streams and the
    files written (path, content, permissions). *)
Record Effects : Type := MkEffects {
  stdout : string;
  stderr : string;
  written : list (string * string * Z)
}.

Definition silent : Effects := MkEffects "" "" [].

Definition newline : string := String "010"%char "".

(** The permissions [0644]. *)
Definition perm0644 : Z := 0x1a4.

(** [run]: it leaves through [os.Exit] ([inl code]) or returns an error. *)
Definition run (os : OS) : Effects * (Z + option error) :=
  match os_Args os with
  | [_; cmd; dir] =>
      if String.eqb cmd "new" then
        match os_Stat os dir with
        | inr err => (silent, inr (Some err))
        | inl false =>
            (silent, inr (Some (ErrBase ("stat " +:+ dir +:+ ": not a directory"))))
        | inl true =>
            let name := Format (time_Now os) +:+ "-new-migration.sql" in
            let path := filepath_Join os dir name in
            match os_WriteFile os path "" perm0644 with
            | Some err => (silent, inr (Some err))
            | None =>
                let eff := MkEffects "" "" [(path, "", perm0644)] in
                match stdout_Write os (path +:+ newline) with
                | Some err => (eff, inr (Some err))
                | None => (MkEffects (path +:+ newline) "" [(path, "", perm0644)], inr None)
                end
            end
        end
      else (MkEffects "" ("usage: flit new MIGRATION-DIR" +:+ newline) [], inl 2)
  | _ => (MkEffects "" ("usage: flit new MIGRATION-DIR" +:+ newline) [], inl 2)
  end.

(** [main]: the effects and the exit status of the process. *)
Definition main (os : OS) : Effects * Z :=
  match run os with
  | (eff, inl code) => (eff, code)
  | (eff, inr None) => (eff, 0)
  | (eff, inr (Some err)) =>
      (MkEffects (stdout eff) (stderr eff +:+ "flit: " +:+ Error err +:+ newline)
         (written eff), 1)
  end.

(** An operating system where [dirs] are the directories and every write
    goes through. *)
Definition plainOS (args : list string) (now : Time) (dirs : list string) : OS := {|
  os_Args := args;
  time_Now := now;
  os_Stat := fun p =>
    if slices_Contains dirs p then inl true
    else inr (ErrBase ("stat " +:+ p +:+ ": no such file or directory"));
  os_WriteFile := fun _ _ _ => None;
  stdout_Write := fun _ => None;
  filepath_Join := fun dir name => dir +:+ "/" +:+ name
|}.

End Cmd.
(** * Properties *)

(** ** SHA-256 test vectors *)

Example fingerprint_empty :
  fingerprint "" = "e3b0c44298fc1c149afbf4c8996fb92427ae41e4649b934ca495991b7852b855".
Proof. vm_compute. reflexivity. Qed.

Example fingerprint_abc :
  fingerprint "abc" = "ba7816bf8f01cfea414140de5dae2223b00361a396177a9cb410ff61f20015ad".
Proof. vm_compute. reflexivity. Qed.

Example fingerprint_001_first :
  fingerprint "001-first.sql" = "4c70e569e4dbbc0d8012bcece74c0be386985fefbe101c3b40249a8982b79314".
Proof. vm_compute. reflexivity. Qed.

Example fingerprint_two_blocks :
  fingerprint "bbbbbbbbbbbbbbbbbbbbbbbbbbbbbbbbbbbbbbbbbbbbbbbbbbbbbbbbbbbbbbbb"
  = "a0fab1377f49a759b57f63318262ebe89fabfc990e8e93ceac2984561482b9d4".
Proof. vm_compute. reflexivity. Qed.

(** ** Byte order on names and [slices.SortFunc] *)

Lemma strings_Compare_le (a b : string) :
  strings_Compare a b <= 0 <-> (a ≤ b)%string.
Proof.
  unfold strings_Compare, String.le, String.leb.
  destruct (String.compare a b); simpl; split; intros H; try done; lia.
Qed.




Global Instance byName_total : Total (cmpLe byName).
Proof.
  intros a b. unfold cmpLe, byName. rewrite !strings_Compare_le.
  apply (total String.le).
Qed.

Global Instance byName_trans : Transitive (cmpLe byName).
Proof.
  intros a b c. unfold cmpLe, byName. rewrite !strings_Compare_le.
  apply (transitivity (R := String.le)).
Qed.

Lemma byName_antisym (a b : migration) :
  cmpLe byName a b -> cmpLe byName b a -> Name a = Name b.
Proof.
  unfold cmpLe, byName. rewrite !strings_Compare_le.
  apply (anti_symm String.le).
Qed.


Lemma SortFunc_perm (x : list migration) : slices_SortFunc x byName ≡ₚ x.
Proof. apply merge_sort_Permutation. Qed.

(** Whatever algorithm [slices.SortFunc] runs, on a slice of migrations with
    pairwise distinct names it can only return this slice. *)
Lemma SortFunc_unique (x sorted : list migration) :
  NoDup (Name <$> x) ->
  sorted ≡ₚ x ->
  Sorted (cmpLe byName) sorted ->
  sorted = slices_SortFunc x byName.
Proof.
  intros Hnd Hperm Hsorted.
  apply (Sorted_unique_strong (cmpLe byName)); [|done|apply Sorted_merge_sort; apply _|].
  - intros a b Ha Hb Hab Hba.
    rewrite Hperm in Ha. rewrite SortFunc_perm in Hb.
    pose proof (byName_antisym _ _ Hab Hba) as Hname.
    apply list_elem_of_lookup in Ha as [i Hi], Hb as [j Hj].
    assert (i = j).
    { eapply NoDup_lookup; [exact Hnd| |];
        rewrite list_lookup_fmap; [by rewrite Hi|by rewrite Hj, Hname]. }
    congruence.
  - by rewrite Hperm, SortFunc_perm.
Qed.


(** ** The map built by [loadMigrations] *)

Lemma slices_Contains_spec (s : list string) (v : string) :
  slices_Contains s v = true <-> v ∈ s.
Proof.
  induction s as [|x s IH]; simpl.
  - split; [done|]. by intros ?%elem_of_nil.
  - destruct (String.eqb_spec x v) as [->|Hne].
    + split; [intros _; left|done].
    + rewrite IH. split; [by right|]. intros [?|?]%elem_of_cons; congruence.
Qed.

Lemma slices_Contains_false (s : list string) (v : string) :
  slices_Contains s v = false <-> v ∉ s.
Proof.
  rewrite <- slices_Contains_spec. destruct (slices_Contains s v); split; congruence.
Qed.

Lemma WellKeyed_empty : WellKeyed ∅.
Proof. intros k u H. by rewrite lookup_empty in H. Qed.

Lemma loadFiles_WellKeyed (fsys : FS) (names : list string)
    (stmts migrations : gmap string migration) :
  WellKeyed stmts ->
  loadFiles fsys names stmts = inl migrations ->
  WellKeyed migrations.
Proof.
  revert stmts. induction names as [|name names IH]; simpl; intros stmts Hwk Hload.
  - by inversion Hload; subst.
  - destruct (fs_ReadFile fsys name) as [data|err]; [|done].
    apply IH in Hload; [done|].
    intros k u Hk. destruct (decide (k = fingerprint name)) as [->|Hne].
    + unfold fingerprint in Hk. rewrite lookup_insert_eq in Hk.
      by inversion Hk; subst.
    + unfold fingerprint in Hne. rewrite lookup_insert_ne in Hk by done. by apply Hwk.
Qed.

Lemma loadMigrations_WellKeyed {DB : Type} (m : Migrator DB)
    (migrations : gmap string migration) :
  loadMigrations m = inl migrations -> WellKeyed migrations.
Proof.
  unfold loadMigrations. destruct (fs_Glob _ _); [|done].
  apply loadFiles_WellKeyed, WellKeyed_empty.
Qed.

(** The names held by a well-keyed map are pairwise distinct. *)
Lemma WellKeyed_names_NoDup (migrations : gmap string migration) :
  WellKeyed migrations ->
  NoDup (Name <$> (snd <$> map_to_list migrations)).
Proof.
  intros Hwk.
  apply (NoDup_fmap_1 fingerprint).
  assert (fingerprint <$> (Name <$> (snd <$> map_to_list migrations))
          = fst <$> map_to_list migrations) as ->.
  { rewrite <- !list_fmap_compose. apply list_fmap_ext.
    intros i [k u] Hin%list_elem_of_lookup_2%elem_of_map_to_list. simpl.
    by destruct (Hwk k u Hin) as [_ ->]. }
  apply NoDup_fst_map_to_list.
Qed.

(** *** The pending set *)

Lemma collectPending_filter (completed : list string)
    (pairs : list (string * migration)) :
  collectPending completed pairs
  = snd <$> filter (fun p => p.1 ∉ completed) pairs.
Proof.
  unfold collectPending.
  assert (forall acc,
    fold_left (fun pending p => if slices_Contains completed (fst p)
                                then pending else pending ++ [snd p]) pairs acc
    = acc ++ (snd <$> filter (fun p => p.1 ∉ completed) pairs)) as H.
  { induction pairs as [|p pairs IH]; intros acc; simpl.
    - by rewrite app_nil_r.
    - rewrite IH, filter_cons.
      destruct (slices_Contains completed p.1) eqn:E.
      + apply slices_Contains_spec in E. by rewrite decide_False by tauto.
      + apply slices_Contains_false in E. rewrite decide_True by done.
        by rewrite <- app_assoc. }
  apply (H []).
Qed.

(** ** The calls to the database *)

Section Runs.

Context {DB : Type} (drv : Driver DB).

Lemma ExecContext_eq (at_ : site) (ctx : context) (sql : string)
    (args : list string) (w : World DB) :
  ExecContext drv at_ ctx sql args w
  = (MkWorld (conn_ExecContext drv ctx sql args (wdb w)).1 (wmu w) (wapplied w)
       (wlog w ++ [EvExec at_ sql args (conn_ExecContext drv ctx sql args (wdb w)).2]),
     Ret (conn_ExecContext drv ctx sql args (wdb w)).2).
Proof.
  unfold ExecContext, logEvent.
  by destruct (conn_ExecContext drv ctx sql args (wdb w)).
Qed.

Lemma QueryContext_eq (at_ : site) (ctx : context) (sql : string) (w : World DB) :
  QueryContext drv at_ ctx sql w
  = (MkWorld (conn_QueryContext drv ctx sql (wdb w)).1 (wmu w) (wapplied w)
       (wlog w ++ [EvQuery at_ sql
                     match (conn_QueryContext drv ctx sql (wdb w)).2 with
                     | inl _ => None
                     | inr e => Some e
                     end]),
     Ret (conn_QueryContext drv ctx sql (wdb w)).2).
Proof.
  unfold QueryContext, logEvent.
  by destruct (conn_QueryContext drv ctx sql (wdb w)).
Qed.

Lemma Conn_eq (ctx : context) (w : World DB) :
  Conn drv ctx w
  = (MkWorld (db_Conn drv ctx (wdb w)).1 (wmu w) (wapplied w)
       (wlog w ++ [EvConn (db_Conn drv ctx (wdb w)).2]),
     Ret (db_Conn drv ctx (wdb w)).2).
Proof. unfold Conn, logEvent. by destruct (db_Conn drv ctx (wdb w)). Qed.

(** *** The loop over the pending migrations *)

Lemma applyPending_run (ctx : context) (pending : list migration)
    (w w' : World DB) (out : outcome (option error)) :
  applyPending drv ctx pending w = (w', out) ->
  exists names evs r,
    out = Ret r /\ LoopRun pending names evs r /\
    wapplied w' = wapplied w ++ names /\ wlog w' = wlog w ++ evs /\
    wmu w' = wmu w.
Proof.
  revert w. induction pending as [|u rest IH]; intros w; simpl.
  - intros [= <- <-]. exists [], [], None.
    rewrite !app_nil_r. eauto using LoopRun.
  - unfold bind at 1. rewrite ExecContext_eq.
    destruct (conn_ExecContext drv ctx (SQL u) [] (wdb w)) as [db1 [cause|]]; simpl.
    { intros [= <- <-]. eexists [], _, _. simpl. rewrite app_nil_r.
      eauto 10 using LoopRun. }
    unfold bind at 1. rewrite ExecContext_eq. simpl.
    destruct (conn_ExecContext drv ctx insertSQL [Sum u] db1) as [db2 [cause|]]; simpl.
    { intros [= <- <-]. eexists [], _, _. simpl.
      rewrite app_nil_r, <- app_assoc. simpl. eauto 10 using LoopRun. }
    unfold bind at 1, appendApplied. simpl. intros Hrest.
    apply IH in Hrest as (names & evs & r & -> & Hrun & Happlied & Hlog & Hmu).
    simpl in *. exists (Name u :: names), (okEvents u ++ evs), r.
    split; [done|]. split; [by constructor|].
    rewrite Happlied, Hlog, Hmu, <- !app_assoc. done.
Qed.

End Runs.

(** *** What a run of the loop looks like *)

Lemma LoopRun_prefix pending names evs r :
  LoopRun pending names evs r ->
  exists done rest,
    pending = done ++ rest /\ names = Name <$> done /\
    (r = None -> rest = []).
Proof.
  induction 1 as [|u rest cause|u rest cause|u rest names evs r _ (done & rest' & -> & -> & Hr)].
  - by exists [], [].
  - by exists [], (u :: rest).
  - by exists [], (u :: rest).
  - by exists (u :: done), rest'.
Qed.

Lemma LoopRun_recordedNames pending names evs r :
  LoopRun pending names evs r -> recordedNames evs = names.
Proof. induction 1; simpl; try done. by f_equal. Qed.


(** At most one statement of the loop fails, the last one, and the error
    returned is built from it. *)
Lemma LoopRun_failure pending names evs r :
  LoopRun pending names evs r ->
  (r = None /\ Forall (fun ev => failedUnitEvent ev = false) evs) \/
  (exists before at_ sql args cause name kind,
     evs = before ++ [EvExec at_ sql args (Some cause)] /\
     Forall (fun ev => failedUnitEvent ev = false) before /\
     recordedNames before = names /\
     ((at_ = AtApply name /\ kind = "apply " /\ executedNames before = names) \/
      (at_ = AtRecord name /\ kind = "record " /\ executedNames before = names ++ [name])) /\
     r = Some (Errorf (kind +:+ name +:+ ": ") cause)).
Proof.
  induction 1 as [|u rest cause|u rest cause|u rest names evs r _ IH].
  - left. by split.
  - right. exists [], (AtApply (Name u)), (SQL u), [], cause, (Name u), "apply ".
    repeat split; eauto.
  - right. exists [EvExec (AtApply (Name u)) (SQL u) [] None],
      (AtRecord (Name u)), insertSQL, [Sum u], cause, (Name u), "record ".
    repeat split; eauto.
  - destruct IH as [[-> Hall]|(before & at_ & sql & args & cause & name & kind & -> & Hall & Hrec & Hat & ->)].
    + left. split; [done|]. unfold okEvents. simpl. repeat constructor; done.
    + right. exists (okEvents u ++ before), at_, sql, args, cause, name, kind.
      split; [by rewrite <- app_assoc|].
      split; [unfold okEvents; simpl; repeat constructor; done|].
      split; [simpl; by f_equal|]. split; [|done].
      destruct Hat as [(-> & -> & Hex)|(-> & -> & Hex)]; [left|right];
        (do 2 (split; [done|])); simpl; by f_equal.
Qed.

(** *** The sorted pending slice *)

Lemma pending_names_NoDup (migrations : gmap string migration)
    (range : gmap string migration -> list (string * migration))
    (completed : list string) :
  RangeOrder range -> WellKeyed migrations ->
  NoDup (Name <$> collectPending completed (range migrations)).
Proof.
  intros Hrange Hwk. rewrite collectPending_filter.
  eapply (sublist_NoDup _ (Name <$> (snd <$> range migrations))).
  - rewrite (Hrange migrations). by apply WellKeyed_names_NoDup.
  - do 2 apply fmap_sublist. apply sublist_filter.
Qed.



Section Shape.

Context {DB : Type} (drv : Driver DB).

Abbreviation quiet := (Forall (fun ev => unitEvent ev = false)).

Lemma criticalSection_run (migrations : gmap string migration)
    (range : gmap string migration -> list (string * migration))
    (ctx : context) (w w' : World DB) (out : outcome (option error)) :
  criticalSection drv migrations range ctx w = (w', out) ->
  wmu w' = wmu w /\ out <> Blocked /\
  exists pre loopevs pending names r,
    wlog w' = wlog w ++ pre ++ loopevs /\ quiet pre /\
    LoopRun pending names loopevs r /\ PendingOf migrations range pending /\
    wapplied w' = wapplied w ++ names /\
    (forall e, r = Some e -> out = Ret (Some e)).
Proof.
  unfold criticalSection, bind at 1. rewrite ExecContext_eq.
  destruct (conn_ExecContext drv ctx createSQL [] (wdb w)) as [db1 [e|]]; simpl.
  { intros [= <- <-]. simpl. do 2 (split; [done|]).
    eexists [_], [], [], [], None. simpl.
    split; [done|]. split; [by repeat constructor|]. split; [constructor|].
    split; [by left|]. split; [by rewrite app_nil_r|done]. }
  unfold bind at 1, getCompletedMigrations, bind at 1. rewrite QueryContext_eq. simpl.
  destruct (conn_QueryContext drv ctx selectSQL db1) as [db2 [rows|e]]; simpl.
  2: { intros [= <- <-]. simpl. do 2 (split; [done|]).
       eexists [_; _], [], [], [], None. simpl.
       split; [by rewrite <- app_assoc|]. split; [by repeat constructor|].
       split; [constructor|].
       split; [by left|]. split; [by rewrite app_nil_r|done]. }
  assert (forall res : list string * option error,
    (match res with
     | (_, Some err) => ret (Some err)
     | (completed, None) =>
         applyPending drv ctx
           (slices_SortFunc (collectPending completed (range migrations)) byName)
     end) (MkWorld db2 (wmu w) (wapplied w)
             ((wlog w ++ [EvExec AtCreate createSQL [] None])
              ++ [EvQuery AtSelect selectSQL None])) = (w', out) ->
    wmu w' = wmu w /\ out <> Blocked /\
    exists pre loopevs pending names r,
      wlog w' = wlog w ++ pre ++ loopevs /\ quiet pre /\
      LoopRun pending names loopevs r /\ PendingOf migrations range pending /\
      wapplied w' = wapplied w ++ names /\
      (forall e, r = Some e -> out = Ret (Some e))) as Hres.
  { intros [completed [err|]]; simpl.
    - intros [= <- <-]. simpl. do 2 (split; [done|]).
      eexists [_; _], [], [], [], None. simpl.
      split; [by rewrite <- app_assoc|]. split; [by repeat constructor|].
      split; [constructor|].
      split; [by left|]. split; [by rewrite app_nil_r|done].
    - intros (names & evs & r & -> & Hrun & Happlied & Hlog & Hmu)%applyPending_run.
      simpl in *. do 2 (split; [done|]).
      eexists [_; _], evs, _, names, r.
      split; [by rewrite Hlog, <- !app_assoc|]. split; [by repeat constructor|].
      split; [exact Hrun|]. split; [right; by exists completed|].
      split; [done|]. by intros e ->. }
  destruct (scanRows (rowsItems rows) []) as [completed|err]; [|apply (Hres ([], Some err))].
  destruct (rowsErr rows) as [err|]; [apply (Hres ([], Some err))|apply (Hres (completed, None))].
Qed.


(** *** The guards around the closure of [Migrate] *)

Ltac shape :=
  simpl; rewrite ?app_nil_r;
  repeat match goal with
    | |- _ /\ _ => split
    | |- Forall _ [] => constructor
    | |- Forall _ (_ :: _) => constructor
    | |- Forall _ (_ ++ _) => apply Forall_app
    | |- LoopRun [] [] [] None => constructor
    | |- PendingOf _ _ [] => by left
    | |- WellKeyed ∅ => apply WellKeyed_empty
    end; try done.

Lemma chain_self (e : error) : e ∈ chain e.
Proof. destruct e; simpl; left. Qed.

Lemma chain_Join_l (e : error) (re : option error) :
  exists j, errors_Join [Some e; re] = Some j /\ chain e ⊆ chain j.
Proof.
  unfold errors_Join. destruct re as [e'|]; simpl; eexists; (split; [done|]);
    intros x Hx; simpl; right; apply elem_of_app; by left.
Qed.

Lemma chain_Join_r (err : option error) (e : error) :
  exists j, errors_Join [err; Some e] = Some j /\ chain e ⊆ chain j.
Proof.
  unfold errors_Join. destruct err as [e'|]; simpl; eexists; (split; [done|]);
    intros x Hx; simpl; right; rewrite ?elem_of_app, ?app_nil_r; auto.
Qed.

Lemma mutexGuard_run (ctx : context) (f : context -> M DB (option error))
    (w w1 : World DB) (out : outcome (option error)) :
  wmu w = false ->
  f ctx (MkWorld (wdb w) true (wapplied w) (wlog w)) = (w1, out) ->
  wmu w1 = true -> out <> Blocked ->
  mutexGuard_Guard ctx f w = (MkWorld (wdb w1) false (wapplied w1) (wlog w1), out).
Proof.
  intros Hfree Hf Hheld Hout. unfold mutexGuard_Guard, Unlock.
  rewrite Hfree, Hf, Hheld. by destruct out.
Qed.

Lemma guard_run (g : GuardFunc DB) (migrations : gmap string migration)
    (range : gmap string migration -> list (string * migration))
    (ctx : context) (w w' : World DB) (out : outcome (option error)) :
  KnownGuard drv g ->
  g ctx (criticalSection drv migrations range) w = (w', out) ->
  exists pre loopevs post pending names r,
    wlog w' = wlog w ++ pre ++ loopevs ++ post /\ quiet pre /\ quiet post /\
    LoopRun pending names loopevs r /\ PendingOf migrations range pending /\
    wapplied w' = wapplied w ++ names /\
    (forall e, r = Some e ->
       exists err, out = Ret (Some err) /\ chain e ⊆ chain err).
Proof.
  intros [|] Hg.
  - (* the mutex *)
    destruct (wmu w) eqn:Hmu.
    { unfold mutexGuard_Guard in Hg. rewrite Hmu in Hg.
      injection Hg as <- <-. exists [], [], [], [], [], None.
      rewrite !app_nil_r. shape. }
    destruct (criticalSection drv migrations range ctx
                (MkWorld (wdb w) true (wapplied w) (wlog w))) as [w1 o] eqn:Hcs.
    pose proof Hcs as (Hheld & Hout & pre & loopevs & pending & names & r
                       & Hlog & Hpre & Hrun & Hpending & Happlied & Hr)%criticalSection_run.
    rewrite (mutexGuard_run ctx _ w w1 o Hmu Hcs Hheld Hout) in Hg.
    injection Hg as <- <-. simpl in *.
    exists pre, loopevs, [], pending, names, r. rewrite app_nil_r.
    shape.
    intros e He. exists e. split; [by apply Hr|done].
  - (* GET_LOCK and RELEASE_LOCK *)
    unfold GuardMySQL, bind at 1 in Hg. rewrite ExecContext_eq in Hg.
    destruct (conn_ExecContext drv ctx lockSQL [] (wdb w)) as [db1 [e|]]; simpl in Hg.
    { injection Hg as <- <-. simpl. eexists [_], [], [], [], [], None.
      shape. }
    match type of Hg with context [criticalSection _ _ _ _ ?w0] =>
      destruct (criticalSection drv migrations range ctx w0) as [w1 o] eqn:Hcs end.
    pose proof Hcs as (Hheld & Hout & pre & loopevs & pending & names & r
                       & Hlog & Hpre & Hrun & Hpending & Happlied & Hr)%criticalSection_run.
    simpl in *. rewrite ExecContext_eq in Hg.
    destruct o as [err|p|]; [| |done]; simpl in Hg; injection Hg as <- <-; simpl.
    + eexists (_ :: pre), loopevs, [_], pending, names, r.
      rewrite Hlog, <- !app_assoc. simpl. shape.
      intros e He. specialize (Hr e He). injection Hr as ->.
      destruct (chain_Join_l e (conn_ExecContext drv ctx releaseSQL [] (wdb w1)).2)
        as (j & -> & Hj).
      by exists j.
    + eexists (_ :: pre), loopevs, [_], pending, names, r.
      rewrite Hlog, <- !app_assoc. simpl. shape.
      intros e He. by specialize (Hr e He).
Qed.

(** *** The shape of every run of [Migrate] under the package's guards *)
Lemma Migrate_run (m : Migrator DB)
    (range : gmap string migration -> list (string * migration))
    (ctx : context) (w w' : World DB)
    (out : outcome (list string * option error)) :
  KnownGuard drv (m_guard m) ->
  Migrate drv m range ctx w = (w', out) ->
  exists migrations pre loopevs post pending names r,
    WellKeyed migrations /\
    wlog w' = wlog w ++ pre ++ loopevs ++ post /\ quiet pre /\ quiet post /\
    LoopRun pending names loopevs r /\ PendingOf migrations range pending /\
    wapplied w' = names /\
    (forall applied err, out = Ret (applied, err) -> applied = names) /\
    (forall e, r = Some e ->
       exists err, out = Ret (names, Some err) /\ chain e ⊆ chain err).
Proof.
  intros Hknown. unfold Migrate.
  destruct (loadMigrations m) as [migrations|err] eqn:Hload.
  2: { intros [= <- <-]. simpl. exists ∅, [], [], [], [], [], None.
       rewrite !app_nil_r. shape. by intros ?? [= <- _]. }
  apply loadMigrations_WellKeyed in Hload. rewrite Conn_eq. simpl.
  destruct (db_Conn drv ctx (wdb w)) as [db1 [err|]]; simpl.
  { intros [= <- <-]. simpl. eexists migrations, [_], [], [], [], [], None.
    shape. by intros ?? [= <- _]. }
  match goal with |- context [m_guard m ctx ?f ?w0] =>
    destruct (m_guard m ctx f w0) as [w2 o] eqn:Hg end.
  apply guard_run in Hg as (pre & loopevs & post & pending & names & r
                            & Hlog & Hpre & Hpost & Hrun & Hpending & Happlied & Hr);
    [|done].
  simpl in *.
  destruct o as [err|p|]; intros [= <- <-]; simpl.
  - exists migrations, (EvConn None :: pre), loopevs, (post ++ [EvClose]), pending, names, r.
    rewrite Hlog, Happlied, <- !app_assoc. simpl. shape.
    + by intros ?? [= <- _].
    + intros e He. destruct (Hr e He) as (err' & [= ->] & Hin). by exists err'.
  - exists migrations, (EvConn None :: pre), loopevs, (post ++ [EvClose]), pending, names, r.
    rewrite Hlog, Happlied, <- !app_assoc. simpl. shape.
    intros e He. by destruct (Hr e He) as (err' & [=] & Hin).
  - exists migrations, (EvConn None :: pre), loopevs, post, pending, names, r.
    rewrite Hlog, Happlied, <- !app_assoc. simpl. shape.
    intros e He. by destruct (Hr e He) as (err' & [=] & Hin).
Qed.

End Shape.

(** ** Reading traces *)

Lemma append_assoc (a b c : string) : (a +:+ b) +:+ c = a +:+ (b +:+ c).
Proof.
  induction a as [|x a IH]; [done|].
  change (String x ((a +:+ b) +:+ c) = String x (a +:+ (b +:+ c))).
  by rewrite IH.
Qed.

Lemma Error_Errorf (prefix : string) (cause : error) :
  Error (Errorf prefix cause) = prefix +:+ Error cause.
Proof. done. Qed.

Lemma chain_Errorf (prefix : string) (cause : error) :
  cause ∈ chain (Errorf prefix cause).
Proof. unfold Errorf. simpl. right. destruct cause; simpl; left. Qed.

Lemma quiet_not_failed (evs : list event) :
  Forall (fun ev => unitEvent ev = false) evs ->
  Forall (fun ev => failedUnitEvent ev = false) evs.
Proof.
  intros H. eapply Forall_impl; [exact H|].
  intros [|[] ? ? []| |]; simpl; congruence.
Qed.


Lemma quiet_recordedNames (evs : list event) :
  Forall (fun ev => unitEvent ev = false) evs -> recordedNames evs = [].
Proof.
  induction 1 as [|ev evs Hev _ IH]; [done|].
  destruct ev as [|[] ? ? []| |]; simpl in *; done.
Qed.

(** A list has one decomposition around its only element satisfying [P]. *)
Lemma split_unique {A : Type} (P : A -> bool) (b1 b2 a1 a2 : list A) (x1 x2 : A) :
  b1 ++ x1 :: a1 = b2 ++ x2 :: a2 ->
  P x1 = true -> P x2 = true ->
  Forall (fun y => P y = false) b1 -> Forall (fun y => P y = false) a1 ->
  b1 = b2 /\ x1 = x2 /\ a1 = a2.
Proof.
  revert b2. induction b1 as [|y b1 IH]; intros [|z b2]; simpl;
    intros Heq H1 H2 Hb Ha.
  - by simplify_eq.
  - simplify_eq.
    apply Forall_app in Ha as [_ Ha]. apply Forall_cons in Ha as [Ha _]. congruence.
  - simplify_eq. apply Forall_cons in Hb as [Hb _]. congruence.
  - injection Heq as <- Heq. apply Forall_cons in Hb as [_ Hb].
    destruct (IH b2 Heq H1 H2 Hb Ha) as (-> & -> & ->). done.
Qed.

(** [nameLt] is the lexicographic order on the bytes of the names. *)
Lemma nameLt_lexicographic (c1 c2 : ascii) (s1 s2 : string) :
  (nameLt (String c1 s1) (String c2 s2) <->
     (N_of_ascii c1 < N_of_ascii c2)%N \/ (c1 = c2 /\ nameLt s1 s2)) /\
  nameLt "" (String c2 s2) /\ ~ nameLt (String c1 s1) "" /\ ~ nameLt "" "".
Proof.
  unfold nameLt, strings_Compare. simpl. repeat split; try lia.
  - unfold Ascii.compare. destruct (N.compare_spec (N_of_ascii c1) (N_of_ascii c2)) as [E|E|E].
    + intros H. right. split; [|done].
      rewrite <- (ascii_N_embedding c1), <- (ascii_N_embedding c2). by rewrite E.
    + by left.
    + lia.
  - unfold Ascii.compare. intros [Hlt|[-> Hlt]].
    + apply N.compare_lt_iff in Hlt. by rewrite Hlt.
    + by rewrite N.compare_refl.
Qed.

(** * The claims *)



(** The test [TestOrder]: ["002-first.sql"] goes before ["01-second.sql"],
    in the run and in the result, whichever file is discovered first. *)
Example Migrate_lexical_order :
  (migrateMem MemDB.accepts lexicalOrderFS [] MemDB.fresh).2
    = Ret (["002-first.sql"; "01-second.sql"], None) /\
  appliedOrder (wlog (migrateMem MemDB.accepts lexicalOrderFS [] MemDB.fresh).1)
    = ["002-first.sql"; "01-second.sql"] /\
  (Migrate (MemDB.driver MemDB.accepts)
     (New (MemDB.dirFS [("01-second.sql", "CREATE TABLE b(id INT)");
                        ("002-first.sql", "CREATE TABLE a(id INT)")]) [])
     map_to_list MemDB.background MemDB.fresh).2
    = Ret (["002-first.sql"; "01-second.sql"], None) /\
  nameLt "002-first.sql" "01-second.sql".
Proof. vm_compute. by repeat split. Qed.

(** C2. Take any run of [Migrate], under either guard of the package, in
    which the database refuses a statement of the loop: the body of the
    migration [name] or the INSERT that records it.  Then no statement of
    the loop follows it, [Migrate] returns the names recorded before it
    (each of them applied, then recorded), and it returns an error whose
    [Unwrap] tree holds ["apply <name>: <cause>"] or
    ["record <name>: <cause>"], wrapping the cause. *)
Theorem Migrate_fail_stop {DB : Type} (drv : Driver DB)
    (m : Migrator DB) (range : gmap string migration -> list (string * migration))
    (ctx : context) (w w' : World DB)
    (out : outcome (list string * option error))
    (before after : list event) (at_ : site) (sql : string)
    (args : list string) (cause : error) (name : string) :
  KnownGuard drv (m_guard m) ->
  Migrate drv m range ctx w = (w', out) ->
  wlog w' = wlog w ++ before ++ EvExec at_ sql args (Some cause) :: after ->
  at_ = AtApply name \/ at_ = AtRecord name ->
  Forall (fun ev => unitEvent ev = false) after /\
  executedNames before
    = recordedNames before ++ match at_ with AtRecord _ => [name] | _ => [] end /\
  exists err wrapped,
    out = Ret (recordedNames before, Some err) /\
    wrapped ∈ chain err /\ cause ∈ chain err /\
    wrapped = Errorf (match at_ with AtRecord _ => "record " | _ => "apply " end
                      +:+ name +:+ ": ") cause /\
    Error wrapped = match at_ with AtRecord _ => "record " | _ => "apply " end
                    +:+ name +:+ ": " +:+ Error cause.
Proof.
  intros Hknown Hrun Hlog Hat.
  destruct (Migrate_run drv m range ctx w w' out Hknown Hrun)
    as (migrations & pre & loopevs & post & pending & names & r & Hwk & Hlog'
        & Hpre & Hpost & Hloop & Hpending & Happlied & Hout & Hr).
  rewrite Hlog in Hlog'. apply app_inv_head in Hlog'.
  assert (failedUnitEvent (EvExec at_ sql args (Some cause)) = true) as Hfailed.
  { by destruct Hat as [->| ->]. }
  destruct (LoopRun_failure _ _ _ _ Hloop)
    as [[-> Hnone]|(before' & at' & sql' & args' & cause' & name' & kind & -> & Hnone
                    & Hrec & Hkind & ->)].
  { (* no statement of the loop failed: the event cannot be in the trace *)
    exfalso.
    assert (Forall (fun ev => failedUnitEvent ev = false) (pre ++ loopevs ++ post)) as Hall.
    { rewrite !Forall_app. auto using quiet_not_failed. }
    rewrite <- Hlog' in Hall. apply Forall_app in Hall as [_ Hall].
    apply Forall_cons in Hall as [Hall _]. congruence. }
  rewrite <- app_assoc in Hlog'. simpl in Hlog'. rewrite app_assoc in Hlog'.
  symmetry in Hlog'.
  assert (failedUnitEvent (EvExec at' sql' args' (Some cause')) = true) as Hfailed'.
  { by destruct Hkind as [(-> & _)|(-> & _)]. }
  destruct (split_unique failedUnitEvent _ _ _ _ _ _ Hlog' Hfailed' Hfailed)
    as (<- & [= -> -> -> ->] & <-).
  { rewrite Forall_app. auto using quiet_not_failed. }
  { by apply quiet_not_failed. }
  split; [done|].
  assert (recordedNames (pre ++ before') = names) as Hnames.
  { unfold recordedNames in *. rewrite omap_app. fold (recordedNames pre).
    by rewrite (quiet_recordedNames pre). }
  assert (executedNames (pre ++ before') = executedNames before') as Hexec.
  { unfold executedNames. rewrite omap_app.
    assert (omap (fun ev => match ev with
                            | EvExec (AtApply name) _ _ None => Some name
                            | _ => None
                            end) pre = []) as ->; [|done].
    clear -Hpre. induction Hpre as [|ev evs Hev _ IH]; [done|].
    destruct ev as [|[] ? ? []| |]; simpl in *; done. }
  rewrite Hnames, Hexec.
  destruct (Hr _ eq_refl) as (err & -> & Hchain).
  assert (name' = name /\
          kind = match at_ with AtRecord _ => "record " | _ => "apply " end /\
          executedNames before'
            = names ++ match at_ with AtRecord _ => [name] | _ => [] end)
    as (-> & -> & ->).
  { destruct Hkind as [(-> & -> & ->)|(-> & -> & ->)];
      destruct Hat as [[=]|[=]]; subst; by rewrite ?app_nil_r. }
  split; [done|]. eexists err, _. split; [done|].
  split; [apply Hchain, chain_self|].
  split; [apply Hchain, chain_Errorf|]. split; [done|].
  by rewrite Error_Errorf, !append_assoc.
Qed.

(** The third of five pending migrations fails: the first two are returned,
    the last two are not attempted. *)
Lemma Migrate_fail_stop_witness :
  Forall (fun ev => unitEvent ev = false) [EvClose] /\
  ["001.sql"; "002.sql"] = ["001.sql"; "002.sql"] ++ [] /\
  exists err wrapped,
    (migrateMem (MemDB.rejecting "CREATE TABLE c(id INT" (ErrBase "syntax error"))
       fiveFS [] MemDB.fresh).2
    = Ret (["001.sql"; "002.sql"], Some err) /\
    wrapped ∈ chain err /\ ErrBase "syntax error" ∈ chain err /\
    wrapped = Errorf ("apply " +:+ "003.sql" +:+ ": ") (ErrBase "syntax error") /\
    Error wrapped = "apply " +:+ "003.sql" +:+ ": " +:+ "syntax error".
Proof.
  apply (Migrate_fail_stop
           (MemDB.driver (MemDB.rejecting "CREATE TABLE c(id INT" (ErrBase "syntax error")))
           (New fiveFS []) map_to_list MemDB.background MemDB.fresh
           (migrateMem (MemDB.rejecting "CREATE TABLE c(id INT" (ErrBase "syntax error"))
              fiveFS [] MemDB.fresh).1
           (migrateMem (MemDB.rejecting "CREATE TABLE c(id INT" (ErrBase "syntax error"))
              fiveFS [] MemDB.fresh).2
           [EvConn None; EvExec AtCreate createSQL [] None;
            EvQuery AtSelect selectSQL None;
            EvExec (AtApply "001.sql") "CREATE TABLE a(id INT)" [] None;
            EvExec (AtRecord "001.sql") insertSQL [fingerprint "001.sql"] None;
            EvExec (AtApply "002.sql") "CREATE TABLE b(id INT)" [] None;
            EvExec (AtRecord "002.sql") insertSQL [fingerprint "002.sql"] None]
           [EvClose] (AtApply "003.sql") "CREATE TABLE c(id INT" []
           (ErrBase "syntax error") "003.sql").
  - apply known_mutexGuard.
  - apply surjective_pairing.
  - vm_compute. reflexivity.
  - left. reflexivity.
Defined.

(** ** Independence of the iteration order *)

Lemma sorted_pending_range (migrations : gmap string migration)
    (range1 range2 : gmap string migration -> list (string * migration))
    (completed : list string) :
  WellKeyed migrations -> RangeOrder range1 -> RangeOrder range2 ->
  slices_SortFunc (collectPending completed (range1 migrations)) byName
  = slices_SortFunc (collectPending completed (range2 migrations)) byName.
Proof.
  intros Hwk H1 H2. apply SortFunc_unique.
  - by apply pending_names_NoDup.
  - rewrite SortFunc_perm, !collectPending_filter.
    by rewrite (H1 migrations), (H2 migrations).
  - apply Sorted_merge_sort; apply _.
Qed.

Section Determinism.

Context {DB : Type} (drv : Driver DB).

Lemma criticalSection_range (migrations : gmap string migration)
    (range1 range2 : gmap string migration -> list (string * migration))
    (ctx : context) (w : World DB) :
  WellKeyed migrations -> RangeOrder range1 -> RangeOrder range2 ->
  criticalSection drv migrations range1 ctx w
  = criticalSection drv migrations range2 ctx w.
Proof.
  intros Hwk H1 H2. unfold criticalSection, bind.
  destruct (ExecContext drv AtCreate ctx createSQL [] w) as [w1 [[e|]|p|]]; try done.
  destruct (getCompletedMigrations drv ctx w1) as [w2 [[completed [e|]]|p|]]; try done.
  by rewrite (sorted_pending_range migrations range1 range2).
Qed.

Lemma guard_range (g : GuardFunc DB) (migrations : gmap string migration)
    (range1 range2 : gmap string migration -> list (string * migration))
    (ctx : context) (w : World DB) :
  KnownGuard drv g ->
  WellKeyed migrations -> RangeOrder range1 -> RangeOrder range2 ->
  g ctx (criticalSection drv migrations range1) w
  = g ctx (criticalSection drv migrations range2) w.
Proof.
  intros [|] Hwk H1 H2.
  - unfold mutexGuard_Guard.
    by rewrite (criticalSection_range migrations range1 range2).
  - unfold GuardMySQL, bind.
    destruct (ExecContext drv AtLock ctx lockSQL [] w) as [w1 [[e|]|p|]]; try done.
    by rewrite (criticalSection_range migrations range1 range2).
Qed.

End Determinism.

(** C10. With the same file system, options, context and state of the
    world, two runs of [Migrate] that iterate over the map of loaded
    migrations in different orders end in the same state and return the same
    names and the same error: the pending slice is sorted by name, and the
    names in it are pairwise distinct, before anything is applied. *)
Theorem Migrate_deterministic {DB : Type} (drv : Driver DB) (m : Migrator DB)
    (range1 range2 : gmap string migration -> list (string * migration))
    (ctx : context) (w : World DB) :
  KnownGuard drv (m_guard m) ->
  RangeOrder range1 -> RangeOrder range2 ->
  Migrate drv m range1 ctx w = Migrate drv m range2 ctx w.
Proof.
  intros Hknown H1 H2. unfold Migrate.
  destruct (loadMigrations m) as [migrations|err] eqn:Hload; [|done].
  apply loadMigrations_WellKeyed in Hload.
  destruct (Conn drv ctx _) as [w1 [[e|]|p|]]; try done.
  by rewrite (guard_range drv _ migrations range1 range2).
Qed.

Lemma Migrate_deterministic_witness :
  migrateMem MemDB.accepts exampleFS [] MemDB.fresh
  = Migrate (MemDB.driver MemDB.accepts) (New exampleFS [])
      (fun m => reverse (map_to_list m)) MemDB.background MemDB.fresh.
Proof.
  apply (Migrate_deterministic (MemDB.driver MemDB.accepts) (New exampleFS [])
           map_to_list (fun m => reverse (map_to_list m))).
  - apply known_mutexGuard.
  - intros m. reflexivity.
  - intros m. apply reverse_Permutation.
Defined.

(** C8. When discovery fails ([fs.Glob] or [fs.ReadFile] returns an error),
    or when it succeeds and [db.Conn] returns an error, [Migrate] returns
    that error and no name; whatever the guard is, it is not called: the
    mutex is untouched, the only event of the run is the failed [db.Conn]
    if it got that far, and no statement reaches the database. *)
Theorem Migrate_aborts_before_guard {DB : Type} (drv : Driver DB)
    (m : Migrator DB) (range : gmap string migration -> list (string * migration))
    (ctx : context) (w : World DB) (err : error) :
  loadMigrations m = inr err \/
  ((exists migrations, loadMigrations m = inl migrations) /\
   (db_Conn drv ctx (wdb w)).2 = Some err) ->
  exists w' evs,
    Migrate drv m range ctx w = (w', Ret ([], Some err)) /\
    (forall g, Migrate drv (WithGuard g m) range ctx w = (w', Ret ([], Some err))) /\
    wmu w' = wmu w /\ wapplied w' = [] /\
    wlog w' = wlog w ++ evs /\
    (evs = [] /\ wdb w' = wdb w \/
     evs = [EvConn (Some err)] /\ wdb w' = (db_Conn drv ctx (wdb w)).1).
Proof.
  intros [Hload|[[migrations Hload] Hconn]].
  - exists (MkWorld (wdb w) (wmu w) [] (wlog w)), [].
    unfold Migrate, loadMigrations in *. simpl. rewrite Hload, app_nil_r.
    repeat split; auto.
  - exists (MkWorld (db_Conn drv ctx (wdb w)).1 (wmu w) []
              (wlog w ++ [EvConn (Some err)])), [EvConn (Some err)].
    unfold Migrate, loadMigrations in *. simpl. rewrite Hload, Conn_eq. simpl.
    rewrite Hconn. repeat split; auto.
Qed.

Lemma Migrate_aborts_before_guard_witness :
  exists w' evs,
    Migrate (MemDB.driver MemDB.accepts) (New exampleFS [])
      map_to_list MemDB.cancelled MemDB.fresh
    = (w', Ret ([], Some (ErrBase "context canceled"))) /\
    (forall g, Migrate (MemDB.driver MemDB.accepts) (WithGuard g (New exampleFS []))
                 map_to_list MemDB.cancelled MemDB.fresh
               = (w', Ret ([], Some (ErrBase "context canceled")))) /\
    wmu w' = false /\ wapplied w' = [] /\
    wlog w' = [] ++ evs /\
    (evs = [] /\ wdb w' = MemDB.empty \/
     evs = [EvConn (Some (ErrBase "context canceled"))] /\ wdb w' = MemDB.empty).
Proof.
  apply (Migrate_aborts_before_guard (MemDB.driver MemDB.accepts) (New exampleFS [])
           map_to_list MemDB.cancelled MemDB.fresh (ErrBase "context canceled")).
  right. split; [|reflexivity].
  eexists. vm_compute. reflexivity.
Defined.

(** C6. [GuardMySQL] first sends [SELECT GET_LOCK('flit', -1)].  When that
    statement fails, the closure is not called and nothing else is sent.
    When it succeeds, the closure runs on the state that follows it, and
    whether the closure returns (an error or not) or panics,
    [SELECT RELEASE_LOCK('flit')] is sent afterwards; the result is
    [errors.Join] of the closure's error and the release's error, so each
    of the two errors, when there is one, is in the tree of the result. *)
Theorem GuardMySQL_releases {DB : Type} (drv : Driver DB) (ctx : context)
    (f : context -> M DB (option error)) (w : World DB)
    (db1 : DB) (le : option error) :
  conn_ExecContext drv ctx lockSQL [] (wdb w) = (db1, le) ->
  let w1 := MkWorld db1 (wmu w) (wapplied w)
              (wlog w ++ [EvExec AtLock lockSQL [] le]) in
  match le with
  | Some e => GuardMySQL drv ctx f w = (w1, Ret (Some e))
  | None =>
      forall w2 out, f ctx w1 = (w2, out) ->
      let re := (conn_ExecContext drv ctx releaseSQL [] (wdb w2)).2 in
      let w3 := MkWorld (conn_ExecContext drv ctx releaseSQL [] (wdb w2)).1
                  (wmu w2) (wapplied w2)
                  (wlog w2 ++ [EvExec AtRelease releaseSQL [] re]) in
      match out with
      | Ret err =>
          GuardMySQL drv ctx f w = (w3, Ret (errors_Join [err; re])) /\
          (forall e, err = Some e \/ re = Some e ->
             exists j, errors_Join [err; re] = Some j /\ e ∈ chain j) /\
          (err = None -> re = None -> errors_Join [err; re] = None)
      | Panic p => GuardMySQL drv ctx f w = (w3, Panic p)
      | Blocked => GuardMySQL drv ctx f w = (w2, Blocked)
      end
  end.
Proof.
  intros Hlock. unfold GuardMySQL, bind. rewrite ExecContext_eq, Hlock. simpl.
  destruct le as [e|]; [done|].
  intros w2 out Hf. rewrite Hf. destruct out as [err|p|]; simpl.
  - rewrite ExecContext_eq. split; [done|]. split.
    + intros e [->| ->].
      * destruct (chain_Join_l e (conn_ExecContext drv ctx releaseSQL [] (wdb w2)).2)
          as (j & Hj & Hin).
        exists j. split; [done|]. apply Hin, chain_self.
      * destruct (chain_Join_r err e) as (j & Hj & Hin).
        exists j. split; [done|]. apply Hin, chain_self.
    + by intros -> ->.
  - by rewrite ExecContext_eq.
  - done.
Qed.

(** The second migration fails under [GuardMySQL]: the lock is released
    after the failure and the error of the closure is in the result. *)
Lemma GuardMySQL_releases_witness :
  let drv := MemDB.driver (MemDB.rejecting "INSERT INTO t VALUES (1)" (ErrBase "no such table: t")) in
  let f := criticalSection drv
             {[ fingerprint "002-second.sql" :=
                  Migration (fingerprint "002-second.sql") "002-second.sql"
                    "INSERT INTO t VALUES (1)" ]} map_to_list in
  let w1 := MkWorld MemDB.empty false [] [EvExec AtLock lockSQL [] None] in
  let w2 := (f MemDB.background w1).1 in
  let re := (conn_ExecContext drv MemDB.background releaseSQL [] (wdb w2)).2 in
  let w3 := MkWorld (conn_ExecContext drv MemDB.background releaseSQL [] (wdb w2)).1
              (wmu w2) (wapplied w2)
              (wlog w2 ++ [EvExec AtRelease releaseSQL [] re]) in
  match (f MemDB.background w1).2 with
  | Ret err =>
      GuardMySQL drv MemDB.background f MemDB.fresh
      = (w3, Ret (errors_Join [err; re])) /\
      (forall e, err = Some e \/ re = Some e ->
         exists j, errors_Join [err; re] = Some j /\ e ∈ chain j) /\
      (err = None -> re = None -> errors_Join [err; re] = None)
  | Panic p => GuardMySQL drv MemDB.background f MemDB.fresh = (w3, Panic p)
  | Blocked => GuardMySQL drv MemDB.background f MemDB.fresh = (w2, Blocked)
  end.
Proof.
  intros drv f w1 w2 re w3.
  exact (GuardMySQL_releases drv MemDB.background f MemDB.fresh
           MemDB.empty None eq_refl (f MemDB.background w1).1
           (f MemDB.background w1).2 (surjective_pairing _)).
Defined.

(** The second migration fails under [GuardMySQL]: the lock is released
    after the failure, and the error of the closure is in the result. *)
Example GuardMySQL_releases_after_failure :
  let drv := MemDB.driver (MemDB.rejecting "INSERT INTO t VALUES (1)" (ErrBase "no such table: t")) in
  exists w3 err,
    Migrate drv (New exampleFS [WithGuard (GuardMySQL drv)])
      map_to_list MemDB.background MemDB.fresh
    = (w3, Ret (["001-first.sql"], Some err)) /\
    appliedOrder (wlog w3) = ["001-first.sql"; "002-second.sql"] /\
    (exists before,
       wlog w3 = before ++ [EvExec AtRelease releaseSQL [] None; EvClose]) /\
    Errorf "apply 002-second.sql: " (ErrBase "no such table: t") ∈ chain err.
Proof.
  eexists _, _. vm_compute. split; [reflexivity|]. split; [reflexivity|].
  split; [by eexists [_; _; _; _; _; _; _]|]. right. left.
Qed.

(** ** Reading the completed migrations *)

(** The two ways [getCompletedMigrations] hands a failure of the scan or of
    the iteration back to its caller. *)
Lemma getCompletedMigrations_scan_failure {DB : Type} (drv : Driver DB)
    (ctx : context) (w : World DB) (db' : DB) (rows : Rows) :
  conn_QueryContext drv ctx selectSQL (wdb w) = (db', inl rows) ->
  let w' := MkWorld db' (wmu w) (wapplied w)
              (wlog w ++ [EvQuery AtSelect selectSQL None]) in
  (forall err, scanRows (rowsItems rows) [] = inr err ->
     getCompletedMigrations drv ctx w = (w', Ret ([], Some err))) /\
  (forall completed err,
     scanRows (rowsItems rows) [] = inl completed -> rowsErr rows = Some err ->
     getCompletedMigrations drv ctx w = (w', Ret ([], Some err))) /\
  (forall completed,
     scanRows (rowsItems rows) [] = inl completed -> rowsErr rows = None ->
     getCompletedMigrations drv ctx w = (w', Ret (completed, None))).
Proof.
  intros Hq. unfold getCompletedMigrations, bind. rewrite QueryContext_eq, Hq. simpl.
  repeat split.
  - by intros err ->.
  - by intros completed err -> ->.
  - by intros completed -> ->.
Qed.

(** C1 (the code departs from the claim). When the query
    [SELECT sum FROM flits] fails, [getCompletedMigrations] does not return
    the error: it panics with it, and so does [Migrate] under the default
    guard, after unlocking the mutex and closing the connection. *)
Theorem Migrate_panics_when_select_fails {DB : Type} (drv : Driver DB)
    (m : Migrator DB) (range : gmap string migration -> list (string * migration))
    (ctx : context) (w : World DB) (migrations : gmap string migration)
    (db1 db2 db3 : DB) (e : error) :
  m_guard m = mutexGuard_Guard ->
  wmu w = false ->
  loadMigrations m = inl migrations ->
  db_Conn drv ctx (wdb w) = (db1, None) ->
  conn_ExecContext drv ctx createSQL [] db1 = (db2, None) ->
  conn_QueryContext drv ctx selectSQL db2 = (db3, inr e) ->
  getCompletedMigrations drv ctx (MkWorld db2 true [] [])
    = (MkWorld db3 true [] [EvQuery AtSelect selectSQL (Some e)], Panic e) /\
  Migrate drv m range ctx w
    = (MkWorld (conn_Close drv db3) false []
         (wlog w ++ [EvConn None; EvExec AtCreate createSQL [] None;
                     EvQuery AtSelect selectSQL (Some e); EvClose]),
       Panic e).
Proof.
  intros Hguard Hmu Hload Hconn Hcreate Hselect. split.
  - unfold getCompletedMigrations, bind. rewrite QueryContext_eq. simpl.
    by rewrite Hselect.
  - unfold Migrate. rewrite Hload, Conn_eq. simpl. rewrite Hconn, Hguard. simpl.
    unfold mutexGuard_Guard. simpl. rewrite Hmu.
    unfold criticalSection, bind at 1. rewrite ExecContext_eq. simpl.
    rewrite Hcreate. simpl.
    unfold getCompletedMigrations, bind. rewrite QueryContext_eq. simpl.
    rewrite Hselect. simpl. unfold Close, logEvent. simpl.
    by rewrite <- !app_assoc.
Qed.

Lemma Migrate_panics_when_select_fails_witness :
  getCompletedMigrations
    (MemDB.driver (MemDB.rejecting selectSQL (ErrBase "connection lost")))
    MemDB.background (MkWorld (MemDB.Mk (Some []) []) true [] [])
  = (MkWorld (MemDB.Mk (Some []) []) true []
       [EvQuery AtSelect selectSQL (Some (ErrBase "connection lost"))],
     Panic (ErrBase "connection lost")) /\
  migrateMem (MemDB.rejecting selectSQL (ErrBase "connection lost"))
    exampleFS [] MemDB.fresh
  = (MkWorld (MemDB.Mk (Some []) []) false []
       ([] ++ [EvConn None; EvExec AtCreate createSQL [] None;
               EvQuery AtSelect selectSQL (Some (ErrBase "connection lost"));
               EvClose]),
     Panic (ErrBase "connection lost")).
Proof.
  eapply (Migrate_panics_when_select_fails
            (MemDB.driver (MemDB.rejecting selectSQL (ErrBase "connection lost")))
            (New exampleFS []) map_to_list MemDB.background MemDB.fresh).
  - reflexivity.
  - reflexivity.
  - vm_compute. reflexivity.
  - reflexivity.
  - reflexivity.
  - reflexivity.
Defined.

(** ** Cancellation *)

Lemma MemDB_honours (rejects : string -> option error) :
  HonoursCtx (MemDB.driver rejects).
Proof.
  split; simpl.
  - by intros ctx e db ->.
  - intros ctx e sql args db H. unfold MemDB.exec. by rewrite H.
  - intros ctx e sql db H. unfold MemDB.query. by rewrite H.
Qed.

(** C7 (counterexample). The default guard does not return on cancellation:
    while another caller holds the mutex, a call with a cancelled context
    stays in [g.Lock()]. *)
Lemma mutexGuard_waits_despite_cancellation :
  ~ ReturnsOnCancel (MemDB.driver MemDB.accepts) mutexGuard_Guard.
Proof.
  intros H.
  destruct (H ∅ map_to_list MemDB.cancelled (ErrBase "context canceled")
              (MkWorld MemDB.empty true [] []) eq_refl)
    as (w' & err & evs & Heq & _).
  unfold mutexGuard_Guard in Heq. simpl in Heq. discriminate.
Qed.

(** *** The context given to the database calls *)

Section Contexts.

Context {DB : Type} (drv : Driver DB).

Lemma Carries_refl (ctx : context) (w : World (DB * list context)) :
  Carries ctx w w.
Proof. exists []. simpl. by rewrite !app_nil_r. Qed.

Lemma Carries_trans (ctx : context) (w1 w2 w3 : World (DB * list context)) :
  Carries ctx w1 w2 -> Carries ctx w2 w3 -> Carries ctx w1 w3.
Proof.
  intros (evs1 & Hlog1 & Hdb1) (evs2 & Hlog2 & Hdb2). exists (evs1 ++ evs2).
  rewrite Hlog2, Hlog1, Hdb2, Hdb1, <- !app_assoc. split; [done|].
  by rewrite List.filter_app, length_app, replicate_add.
Qed.

Lemma Carries_same (ctx : context) (w w' : World (DB * list context)) :
  wdb w' = wdb w -> wlog w' = wlog w -> Carries ctx w w'.
Proof. intros Hdb Hlog. exists []. simpl. by rewrite Hdb, Hlog, !app_nil_r. Qed.

Lemma CarriesM_ret {A : Type} (ctx : context) (a : A) :
  CarriesM (DB := DB) ctx (ret a).
Proof. intros w w' o [= <- <-]. apply Carries_refl. Qed.

Lemma CarriesM_panic {A : Type} (ctx : context) (e : error) :
  CarriesM (DB := DB) (A := A) ctx (panic e).
Proof. intros w w' o [= <- <-]. apply Carries_refl. Qed.

Lemma CarriesM_bind {A B : Type} (ctx : context)
    (c : M (DB * list context) A) (k : A -> M (DB * list context) B) :
  CarriesM ctx c -> (forall a, CarriesM ctx (k a)) -> CarriesM ctx (bind c k).
Proof.
  intros Hc Hk w w' o. unfold bind. destruct (c w) as [w1 [a|p|]] eqn:Hcw.
  - intros Hka. eapply Carries_trans; [by eapply Hc|by eapply Hk].
  - intros [= <- <-]. by eapply Hc.
  - intros [= <- <-]. by eapply Hc.
Qed.

Lemma CarriesM_Exec (at_ : site) (ctx : context) (sql : string) (args : list string) :
  CarriesM ctx (ExecContext (recording drv) at_ ctx sql args).
Proof.
  intros w w' o. rewrite ExecContext_eq. intros [= <- <-].
  by eexists [_].
Qed.

Lemma CarriesM_Query (at_ : site) (ctx : context) (sql : string) :
  CarriesM ctx (QueryContext (recording drv) at_ ctx sql).
Proof.
  intros w w' o. rewrite QueryContext_eq. intros [= <- <-].
  by eexists [_].
Qed.

Lemma CarriesM_Conn (ctx : context) : CarriesM ctx (Conn (recording drv) ctx).
Proof.
  intros w w' o. rewrite Conn_eq. intros [= <- <-]. by eexists [_].
Qed.

Lemma Carries_Close (ctx : context) (w : World (DB * list context)) :
  Carries ctx w (Close (recording drv) w).
Proof. exists [EvClose]. by rewrite app_nil_r. Qed.

Lemma CarriesM_applyPending (ctx : context) (pending : list migration) :
  CarriesM ctx (applyPending (recording drv) ctx pending).
Proof.
  induction pending as [|u rest IH]; [apply CarriesM_ret|].
  cbn [applyPending]. apply CarriesM_bind; [apply CarriesM_Exec|].
  intros [err|]; [apply CarriesM_ret|].
  apply CarriesM_bind; [apply CarriesM_Exec|].
  intros [err|]; [apply CarriesM_ret|].
  apply CarriesM_bind; [|done].
  intros w w' o [= <- <-]. by apply Carries_same.
Qed.

Lemma CarriesM_criticalSection (ms : gmap string migration)
    (range : gmap string migration -> list (string * migration)) (ctx : context) :
  CarriesM ctx (criticalSection (recording drv) ms range ctx).
Proof.
  unfold criticalSection. apply CarriesM_bind; [apply CarriesM_Exec|].
  intros [err|]; [apply CarriesM_ret|].
  apply CarriesM_bind.
  - unfold getCompletedMigrations. apply CarriesM_bind; [apply CarriesM_Query|].
    intros [rows|err]; [|apply CarriesM_panic].
    destruct (scanRows (rowsItems rows) []); [|apply CarriesM_ret].
    destruct (rowsErr rows); apply CarriesM_ret.
  - intros [completed [err|]]; [apply CarriesM_ret|apply CarriesM_applyPending].
Qed.

Lemma CarriesM_guard (g : GuardFunc (DB * list context))
    (f : context -> M (DB * list context) (option error)) (ctx : context) :
  KnownGuard (recording drv) g -> CarriesM ctx (f ctx) -> CarriesM ctx (g ctx f).
Proof.
  intros [|] Hf w w' o.
  - unfold mutexGuard_Guard, Unlock. destruct (wmu w).
    { intros [= <- <-]. apply Carries_refl. }
    destruct (f ctx (MkWorld (wdb w) true (wapplied w) (wlog w))) as [w1 o1] eqn:Hfw.
    apply Hf in Hfw. intros Hrun.
    apply (Carries_trans ctx w (MkWorld (wdb w) true (wapplied w) (wlog w)));
      [by apply Carries_same|].
    apply (Carries_trans ctx _ w1); [done|].
    apply Carries_same; destruct o1 as [err|p|], (wmu w1); by injection Hrun as <- <-.
  - revert w w' o. unfold GuardMySQL. apply CarriesM_bind; [apply CarriesM_Exec|].
    intros [err|]; [apply CarriesM_ret|]. intros w w' o.
    destruct (f ctx w) as [w1 o1] eqn:Hfw. apply Hf in Hfw.
    destruct (ExecContext (recording drv) AtRelease ctx releaseSQL [] w1)
      as [w2 o2] eqn:Hrel.
    pose proof (ExecContext_eq (recording drv) AtRelease ctx releaseSQL [] w1) as Heq.
    rewrite Hrel in Heq. apply CarriesM_Exec in Hrel.
    destruct o1 as [err|p|].
    + destruct o2 as [re|p|]; intros [= <- <-]; by eapply Carries_trans.
    + intros [= <- <-]. by eapply Carries_trans.
    + by intros [= <- <-].
Qed.

Lemma CarriesM_Migrate (m : Migrator (DB * list context))
    (range : gmap string migration -> list (string * migration)) (ctx : context)
    (w w' : World (DB * list context))
    (out : outcome (list string * option error)) :
  KnownGuard (recording drv) (m_guard m) ->
  Migrate (recording drv) m range ctx w = (w', out) -> Carries ctx w w'.
Proof.
  intros Hknown. unfold Migrate.
  destruct (loadMigrations m) as [ms|err].
  2: { intros [= <- <-]. by apply Carries_same. }
  match goal with |- context [Conn _ ctx ?w0] =>
    destruct (Conn (recording drv) ctx w0) as [w1 o1] eqn:Hconn;
    assert (Carries ctx w w1) as H1
      by (apply (Carries_trans ctx w w0);
          [by apply Carries_same|by apply CarriesM_Conn in Hconn]) end.
  destruct o1 as [[err|]|p|]; try (by intros [= <- <-]).
  destruct (m_guard m ctx (criticalSection (recording drv) ms range) w1)
    as [w2 o2] eqn:Hg.
  apply (CarriesM_guard _ _ ctx Hknown (CarriesM_criticalSection ms range ctx)) in Hg.
  destruct o2 as [err|p|]; intros [= <- <-].
  - eapply Carries_trans; [exact H1|]. eapply Carries_trans; [exact Hg|].
    apply Carries_Close.
  - eapply Carries_trans; [exact H1|]. eapply Carries_trans; [exact Hg|].
    apply Carries_Close.
  - by eapply Carries_trans.
Qed.

End Contexts.

(** C7 (amended). [Migrate] gives the context of its caller to every call it
    makes on the database, under either guard: on a driver that records the
    context of each call, a run adds one context per call of its trace, and
    each is the caller's.  Under [GuardMySQL] the wait for the lock is the
    statement GET_LOCK: whenever it returns an error, whatever the state of
    the context was at the call, the guard returns that error without
    running the closure, and [Migrate] returns it after closing the
    connection, with no name.  The default guard never reads the context:
    while the mutex is held it stays in [g.Lock()] whatever the context,
    and does not run the closure.  With a cancelled context, on a driver
    that honours cancellation, [GuardMySQL] fails at GET_LOCK, and the
    default guard, once the mutex is free, fails at the first statement of
    the closure, so that no migration is applied. *)
Theorem guards_on_cancellation {DB : Type} (drv : Driver DB) (ctx : context) :
  (forall (m : Migrator (DB * list context))
          (range : gmap string migration -> list (string * migration))
          (w w' : World (DB * list context))
          (out : outcome (list string * option error)) (evs : list event),
     KnownGuard (recording drv) (m_guard m) ->
     Migrate (recording drv) m range ctx w = (w', out) ->
     wlog w' = wlog w ++ evs ->
     (wdb w').2 = (wdb w).2 ++ replicate (length (List.filter takesCtx evs)) ctx) /\
  (forall (f : context -> M DB (option error)) (w : World DB) (db1 : DB) (le : error),
     conn_ExecContext drv ctx lockSQL [] (wdb w) = (db1, Some le) ->
     GuardMySQL drv ctx f w
     = (MkWorld db1 (wmu w) (wapplied w)
          (wlog w ++ [EvExec AtLock lockSQL [] (Some le)]), Ret (Some le))) /\
  (forall (m : Migrator DB)
          (range : gmap string migration -> list (string * migration))
          (w : World DB) (ms : gmap string migration) (dbA dbL : DB) (le : error),
     m_guard m = GuardMySQL drv -> loadMigrations m = inl ms ->
     db_Conn drv ctx (wdb w) = (dbA, None) ->
     conn_ExecContext drv ctx lockSQL [] dbA = (dbL, Some le) ->
     Migrate drv m range ctx w
     = (MkWorld (conn_Close drv dbL) (wmu w) []
          (wlog w ++ [EvConn None; EvExec AtLock lockSQL [] (Some le); EvClose]),
        Ret ([], Some le))) /\
  (forall (any : context) (f : context -> M DB (option error)) (w : World DB),
     wmu w = true -> mutexGuard_Guard any f w = (w, Blocked)) /\
  (forall (e : error), HonoursCtx drv -> ctxErr ctx = Some e ->
     ReturnsOnCancel drv (GuardMySQL drv) /\
     forall (migrations : gmap string migration)
            (range : gmap string migration -> list (string * migration))
            (w : World DB),
       GuardMySQL drv ctx (criticalSection drv migrations range) w
       = (MkWorld (wdb w) (wmu w) (wapplied w)
            (wlog w ++ [EvExec AtLock lockSQL [] (Some e)]), Ret (Some e)) /\
       (wmu w = false ->
        mutexGuard_Guard ctx (criticalSection drv migrations range) w
        = (MkWorld (wdb w) false (wapplied w)
             (wlog w ++ [EvExec AtCreate createSQL [] (Some e)]),
           Ret (Some (Errorf "create flits table: " e)))) /\
       (wmu w = true ->
        mutexGuard_Guard ctx (criticalSection drv migrations range) w = (w, Blocked))).
Proof.
  assert (forall (c : context) (f : context -> M DB (option error)) (w : World DB)
                 (db1 : DB) (le : error),
            conn_ExecContext drv c lockSQL [] (wdb w) = (db1, Some le) ->
            GuardMySQL drv c f w
            = (MkWorld db1 (wmu w) (wapplied w)
                 (wlog w ++ [EvExec AtLock lockSQL [] (Some le)]), Ret (Some le)))
    as Hmysql.
  { intros c f w db1 le Hlock. unfold GuardMySQL, bind.
    by rewrite ExecContext_eq, Hlock. }
  split; [|split; [|split; [|split]]].
  - intros m range w w' out evs Hknown Hrun Hlog.
    destruct (CarriesM_Migrate drv m range ctx w w' out Hknown Hrun)
      as (evs' & Hlog' & Hdb).
    rewrite Hlog in Hlog'. by apply app_inv_head in Hlog' as ->.
  - apply Hmysql.
  - intros m range w ms dbA dbL le Hguard Hload Hconn Hlock.
    unfold Migrate. rewrite Hload, Conn_eq. simpl. rewrite Hconn, Hguard. simpl.
    rewrite (Hmysql ctx _ _ dbL le) by done. simpl.
    unfold Close, logEvent. simpl. by rewrite <- !app_assoc.
  - intros any f w Hmu. unfold mutexGuard_Guard. by rewrite Hmu.
  - intros e Hdrv Hctx. split.
    + intros ms rg c e0 w0 Hc.
      eexists _, e0, [_].
      rewrite (Hmysql c _ w0 (wdb w0) e0 (honours_Exec drv Hdrv c e0 _ _ _ Hc)).
      by repeat split.
    + intros migrations range w. split; [|split].
      * by apply Hmysql, (honours_Exec drv Hdrv).
      * intros Hmu. unfold mutexGuard_Guard. rewrite Hmu.
        unfold criticalSection, bind. rewrite ExecContext_eq. simpl.
        by rewrite (honours_Exec drv Hdrv ctx e _ _ _ Hctx).
      * intros Hmu. unfold mutexGuard_Guard. by rewrite Hmu.
Qed.

Lemma guards_on_cancellation_witness :
  let drv := MemDB.driver MemDB.accepts in
  let busy := MemDB.driver (MemDB.rejecting lockSQL (ErrBase "context canceled")) in
  let e := ErrBase "context canceled" in
  let cs := criticalSection drv ∅ map_to_list in
  let run := Migrate (recording drv)
               (New exampleFS [WithGuard (GuardMySQL (recording drv))])
               map_to_list MemDB.background (MkWorld (MemDB.empty, []) false [] []) in
  (wdb run.1).2
  = [] ++ replicate (length (List.filter takesCtx (wlog run.1))) MemDB.background /\
  Migrate busy (New exampleFS [WithGuard (GuardMySQL busy)]) map_to_list
    MemDB.background MemDB.fresh
  = (MkWorld MemDB.empty false []
       ([] ++ [EvConn None; EvExec AtLock lockSQL [] (Some e); EvClose]),
     Ret ([], Some e)) /\
  mutexGuard_Guard MemDB.cancelled cs (MkWorld MemDB.empty true [] [])
  = (MkWorld MemDB.empty true [] [], Blocked) /\
  GuardMySQL drv MemDB.cancelled cs MemDB.fresh
  = (MkWorld MemDB.empty false [] ([] ++ [EvExec AtLock lockSQL [] (Some e)]),
     Ret (Some e)) /\
  mutexGuard_Guard MemDB.cancelled cs MemDB.fresh
  = (MkWorld MemDB.empty false [] ([] ++ [EvExec AtCreate createSQL [] (Some e)]),
     Ret (Some (Errorf "create flits table: " e))).
Proof.
  intros drv busy e cs run.
  destruct (guards_on_cancellation drv MemDB.background) as (Hcalls & _).
  destruct (guards_on_cancellation busy MemDB.background) as (_ & _ & Hbusy & _).
  destruct (guards_on_cancellation drv MemDB.cancelled)
    as (_ & _ & _ & Hheld & Hcancelled).
  destruct (Hcancelled e (MemDB_honours MemDB.accepts) eq_refl) as (_ & Hguards).
  destruct (Hguards ∅ map_to_list MemDB.fresh) as (Hmysql & Hfree & _).
  split; [|split; [|split; [|split]]].
  - apply (Hcalls (New exampleFS [WithGuard (GuardMySQL (recording drv))])
             map_to_list (MkWorld (MemDB.empty, []) false [] []) run.1 run.2).
    + apply known_GuardMySQL.
    + apply surjective_pairing.
    + reflexivity.
  - apply (Hbusy (New exampleFS [WithGuard (GuardMySQL busy)]) map_to_list MemDB.fresh
             (match loadMigrations (DB := MemDB.t)
                      (New exampleFS [WithGuard (GuardMySQL busy)])
              with inl ms => ms | inr _ => ∅ end) MemDB.empty MemDB.empty e).
    + reflexivity.
    + vm_compute. reflexivity.
    + reflexivity.
    + reflexivity.
  - apply (Hheld MemDB.cancelled cs (MkWorld MemDB.empty true [] [])). reflexivity.
  - exact Hmysql.
  - apply Hfree. reflexivity.
Defined.

(** ** Checksums *)

Lemma hex_length (bs : list Z) :
  String.length (hex.EncodeToString bs) = (2 * length bs)%nat.
Proof. induction bs as [|b bs IH]; simpl; [done|]. rewrite IH. lia. Qed.

Lemma Sum256_length (data : list Z) : length (sha256.Sum256 data) = 32%nat.
Proof. done. Qed.

Lemma Sum256_bytes (data : list Z) :
  Forall (fun b => 0 <= b < 256) (sha256.Sum256 data).
Proof.
  unfold sha256.Sum256, sha256.ofRegs. simpl.
  assert (forall x, 0 <= Z.land x 0xFF < 256) as Hbyte.
  { intros x. change 0xFF with (Z.ones 8). rewrite Z.land_ones by lia.
    apply Z.mod_pos_bound. lia. }
  repeat (apply Forall_cons; split; [apply Hbyte|]). constructor.
Qed.

Lemma undigit_digit (n : Z) : 0 <= n < 16 -> undigit (hex.digit n) = n.
Proof.
  intros Hn.
  assert (forallb (fun n => Z.eqb (undigit (hex.digit n)) n) (seqZ 0 16) = true)
    as Hall by (vm_compute; reflexivity).
  rewrite forallb_forall in Hall. apply Z.eqb_eq, Hall.
  apply list_elem_of_In, elem_of_seqZ. lia.
Qed.

Lemma byte_nibbles (b : Z) :
  0 <= b < 256 ->
  0 <= Z.shiftr b 4 < 16 /\ 0 <= Z.land b 0x0F < 16 /\
  b = 16 * Z.shiftr b 4 + Z.land b 0x0F.
Proof.
  intros Hb. rewrite Z.shiftr_div_pow2 by lia.
  change 0x0F with (Z.ones 4). rewrite Z.land_ones by lia.
  change (2 ^ 4) with 16.
  pose proof (Z.div_mod b 16). pose proof (Z.mod_pos_bound b 16).
  split; [|lia]. split; [apply Z.div_pos; lia|apply Z.div_lt_upper_bound; lia].
Qed.

(** [hex.EncodeToString] loses nothing. *)
Lemma hex_inj (bs1 bs2 : list Z) :
  Forall (fun b => 0 <= b < 256) bs1 -> Forall (fun b => 0 <= b < 256) bs2 ->
  hex.EncodeToString bs1 = hex.EncodeToString bs2 -> bs1 = bs2.
Proof.
  intros H1. revert bs2. induction H1 as [|b1 bs1 Hb1 _ IH]; intros bs2 H2 Heq.
  - by destruct bs2.
  - destruct H2 as [|b2 bs2 Hb2 H2]; [done|]. simpl in Heq.
    injection Heq as Hhi Hlo Hrest.
    destruct (byte_nibbles b1 Hb1) as (? & ? & E1).
    destruct (byte_nibbles b2 Hb2) as (? & ? & E2).
    apply (f_equal undigit) in Hhi, Hlo. rewrite !undigit_digit in Hhi, Hlo by done.
    f_equal; [lia|by apply IH].
Qed.

Lemma hex_lowercase (bs : list Z) :
  Forall (fun c => c ∈ list_ascii_of_string hex.hextable)
    (list_ascii_of_string (hex.EncodeToString bs)).
Proof.
  assert (forall n, hex.digit n ∈ list_ascii_of_string hex.hextable) as Hdigit.
  { intros n. unfold hex.digit.
    destruct (String.get (Z.to_nat n) hex.hextable) as [c|] eqn:E; [|by left].
    remember (Z.to_nat n) as i eqn:Hi. clear Hi.
    do 16 (destruct i as [|i]; [injection E as <-; set_solver|]).
    done. }
  induction bs as [|b bs IH]; simpl; [constructor|].
  repeat (constructor; [apply Hdigit|]). exact IH.
Qed.

Lemma fingerprint_inj_digest (n1 n2 : string) :
  fingerprint n1 = fingerprint n2 <->
  sha256.Sum256 (bytesOf n1) = sha256.Sum256 (bytesOf n2).
Proof.
  split; [|unfold fingerprint; by intros ->].
  apply hex_inj; apply Sum256_bytes.
Qed.

(** *** Which migrations are pending *)

Lemma collectPending_spec (migrations : gmap string migration)
    (range : gmap string migration -> list (string * migration))
    (completed : list string) (u : migration) :
  RangeOrder range ->
  u ∈ collectPending completed (range migrations) <->
  exists k, migrations !! k = Some u /\ k ∉ completed.
Proof.
  intros Hrange. rewrite collectPending_filter, list_elem_of_fmap. split.
  - intros ([k u'] & -> & [Hk Hin]%list_elem_of_filter).
    rewrite (Hrange migrations) in Hin. apply elem_of_map_to_list in Hin. eauto.
  - intros (k & Hk & Hnotin). exists (k, u). split; [done|].
    apply list_elem_of_filter. split; [done|].
    rewrite (Hrange migrations). by apply elem_of_map_to_list.
Qed.

(** C5. For a migration [u] loaded by [loadMigrations], the checksum [Sum u],
    which is also its key in the map, is the lowercase hexadecimal text (64
    characters of [0123456789abcdef]) of the SHA-256 digest of [Name u]; the
    body plays no part.  So a migration [u'] loaded after an edit of the body
    ([Name u' = Name u], any [SQL u']) has the same checksum and key and is
    pending exactly when [u] is, that is exactly when the checksum is not
    among the completed ones; and two names give the same checksum exactly
    when their SHA-256 digests are equal, so that a renamed file is a new
    migration unless SHA-256 collides. *)
Theorem fingerprint_of_name_only {DB : Type} (m m' : Migrator DB)
    (ms ms' : gmap string migration)
    (range range' : gmap string migration -> list (string * migration))
    (k k' : string) (u u' : migration) :
  loadMigrations m = inl ms -> loadMigrations m' = inl ms' ->
  RangeOrder range -> RangeOrder range' ->
  ms !! k = Some u -> ms' !! k' = Some u' ->
  (Sum u = hex.EncodeToString (sha256.Sum256 (bytesOf (Name u))) /\ k = Sum u /\
   String.length (Sum u) = 64%nat /\
   Forall (fun c => c ∈ list_ascii_of_string hex.hextable)
     (list_ascii_of_string (Sum u))) /\
  (forall completed,
     u ∈ collectPending completed (range ms) <-> Sum u ∉ completed) /\
  (Name u' = Name u ->
   Sum u' = Sum u /\ k' = k /\
   forall completed,
     u' ∈ collectPending completed (range' ms') <->
     u ∈ collectPending completed (range ms)) /\
  (Sum u' = Sum u <->
   sha256.Sum256 (bytesOf (Name u')) = sha256.Sum256 (bytesOf (Name u))).
Proof.
  intros Hload Hload' Hrange Hrange' Hk Hk'.
  apply loadMigrations_WellKeyed in Hload, Hload'.
  destruct (Hload k u Hk) as [Hsum Hkey], (Hload' k' u' Hk') as [Hsum' Hkey'].
  assert (forall (ms0 : gmap string migration) range0 k0 u0 completed,
            WellKeyed ms0 -> RangeOrder range0 -> ms0 !! k0 = Some u0 ->
            u0 ∈ collectPending completed (range0 ms0) <-> Sum u0 ∉ completed)
    as Hpending.
  { intros ms0 range0 k0 u0 completed Hwk Hr Hk0.
    rewrite (collectPending_spec ms0 range0 completed u0 Hr).
    destruct (Hwk k0 u0 Hk0) as [Hs _]. split.
    - intros (k1 & Hk1 & Hnotin). by destruct (Hwk k1 u0 Hk1) as [-> _].
    - intros Hnotin. exists k0. split; [done|]. by rewrite <- Hs. }
  split; [|split; [|split]].
  - rewrite Hsum, Hkey. unfold fingerprint.
    split; [done|]. split; [done|].
    split; [by rewrite hex_length, Sum256_length|apply hex_lowercase].
  - intros completed. by apply (Hpending ms range k).
  - intros Hname.
    assert (Sum u' = Sum u) as Heq by (by rewrite Hsum, Hsum', Hkey, Hkey', Hname).
    split; [done|]. split; [by rewrite <- Hsum, <- Hsum'|].
    intros completed.
    by rewrite (Hpending ms range k u), (Hpending ms' range' k' u'), Heq.
  - rewrite Hsum, Hsum', Hkey, Hkey'. apply fingerprint_inj_digest.
Qed.

Lemma fingerprint_of_name_only_witness :
  let u := Migration (fingerprint "002-second.sql") "002-second.sql"
             "INSERT INTO t VALUES (1)" in
  let u' := Migration (fingerprint "002-second.sql") "002-second.sql"
              "INSERT INTO t VALUES (2)" in
  let ms := match loadMigrations (DB := MemDB.t) (New exampleFS []) with
            | inl ms => ms
            | inr _ => ∅
            end in
  let ms' := match loadMigrations (DB := MemDB.t) (New editedFS []) with
             | inl ms => ms
             | inr _ => ∅
             end in
  (Sum u = hex.EncodeToString (sha256.Sum256 (bytesOf (Name u))) /\
   fingerprint "002-second.sql" = Sum u /\
   String.length (Sum u) = 64%nat /\
   Forall (fun c => c ∈ list_ascii_of_string hex.hextable)
     (list_ascii_of_string (Sum u))) /\
  (forall completed,
     u ∈ collectPending completed (map_to_list ms) <-> Sum u ∉ completed) /\
  (Name u' = Name u ->
   Sum u' = Sum u /\ fingerprint "002-second.sql" = fingerprint "002-second.sql" /\
   forall completed,
     u' ∈ collectPending completed (map_to_list ms') <->
     u ∈ collectPending completed (map_to_list ms)) /\
  (Sum u' = Sum u <->
   sha256.Sum256 (bytesOf (Name u')) = sha256.Sum256 (bytesOf (Name u))).
Proof.
  intros u u' ms ms'.
  apply (fingerprint_of_name_only (DB := MemDB.t) (New exampleFS []) (New editedFS [])
           ms ms' map_to_list map_to_list).
  - vm_compute. reflexivity.
  - vm_compute. reflexivity.
  - intros x. reflexivity.
  - intros x. reflexivity.
  - vm_compute. reflexivity.
  - vm_compute. reflexivity.
Defined.

(** Renaming [001-first.sql] gives it another checksum: with the old one
    recorded, the renamed file is applied again. *)
Example renamed_is_applied_again :
  fingerprint "001-renamed.sql" <> fingerprint "001-first.sql" /\
  let w1 := (migrateMem MemDB.accepts
               (MemDB.dirFS [("001-first.sql", "CREATE TABLE t(id INT)")]) []
               MemDB.fresh).1 in
  (migrateMem MemDB.accepts
     (MemDB.dirFS [("001-renamed.sql", "CREATE TABLE t(id INT)")]) [] w1).2
  = Ret (["001-renamed.sql"], None) /\
  (migrateMem MemDB.accepts
     (MemDB.dirFS [("001-first.sql", "CREATE TABLE t(id INT, v INT)")]) [] w1).2
  = Ret ([], None).
Proof. vm_compute. split; [discriminate|done]. Qed.

(** ** Running twice *)

Lemma scanRows_spec items acc :
  match scanRows items acc with
  | inl completed =>
      (forall e, inr e ∉ items) /\
      exists scanned, completed = acc ++ scanned /\
                      forall s, s ∈ scanned <-> inl s ∈ items
  | inr e => inr e ∈ items
  end.
Proof.
  revert acc. induction items as [|[s|e] items IH]; intros acc; simpl.
  - split; [intros e; apply not_elem_of_nil|].
    exists []. rewrite app_nil_r. split; [done|].
    intros s. split; by intros ?%elem_of_nil.
  - specialize (IH (acc ++ [s])).
    destruct (scanRows items (acc ++ [s])) as [completed|e].
    + destruct IH as (Hclean & scanned & -> & Hscanned). split.
      * intros e [?|?]%elem_of_cons; [done|]. by apply (Hclean e).
      * exists (s :: scanned). rewrite <- app_assoc. split; [done|].
        intros s'. rewrite !elem_of_cons, Hscanned. split.
        -- intros [->|?]; auto.
        -- intros [[= ->]|?]; auto.
    + by right.
  - left.
Qed.

Section Idempotence.

Context {DB : Type} (drv : Driver DB).
Context (recorded : DB -> list string) (safe : string -> Prop).
Hypothesis Hts : TrackingStore drv recorded safe.

Lemma exec_body_mono ctx sql db db' r :
  safe sql -> conn_ExecContext drv ctx sql [] db = (db', r) ->
  recorded db ⊆ recorded db'.
Proof. intros Hsafe H. pose proof (ts_body _ _ _ Hts ctx sql db Hsafe) as Hm. by rewrite H in Hm. Qed.

Lemma exec_insert_mono ctx sum db db' r :
  conn_ExecContext drv ctx insertSQL [sum] db = (db', r) ->
  recorded db ⊆ recorded db'.
Proof. intros H. pose proof (ts_insert _ _ _ Hts ctx sum db) as Hm. by rewrite H in Hm. Qed.

Lemma exec_create_mono ctx db db' r :
  conn_ExecContext drv ctx createSQL [] db = (db', r) ->
  recorded db ⊆ recorded db'.
Proof. intros H. pose proof (ts_create _ _ _ Hts ctx db) as Hm. by rewrite H in Hm. Qed.

Lemma query_mono ctx db db' r :
  conn_QueryContext drv ctx selectSQL db = (db', r) ->
  recorded db ⊆ recorded db'.
Proof. intros H. pose proof (ts_query _ _ _ Hts ctx db) as Hm. by rewrite H in Hm. Qed.

Lemma conn_mono ctx db db' r :
  db_Conn drv ctx db = (db', r) -> recorded db ⊆ recorded db'.
Proof. intros H. pose proof (ts_conn _ _ _ Hts ctx db) as Hm. by rewrite H in Hm. Qed.

(** A loop that goes through records every migration it was given. *)
Lemma applyPending_records (ctx : context) (pending : list migration)
    (w w' : World DB) :
  (forall u, u ∈ pending -> safe (SQL u)) ->
  applyPending drv ctx pending w = (w', Ret None) ->
  recorded (wdb w) ⊆ recorded (wdb w') /\
  forall u, u ∈ pending -> Sum u ∈ recorded (wdb w').
Proof.
  revert w. induction pending as [|u rest IH]; intros w Hsafe; simpl.
  - intros [= <-]. split; [done|]. by intros u ?%elem_of_nil.
  - unfold bind at 1. rewrite ExecContext_eq.
    destruct (conn_ExecContext drv ctx (SQL u) [] (wdb w)) as [db1 [e|]] eqn:Hbody;
      simpl; [done|].
    unfold bind at 1. rewrite ExecContext_eq. simpl.
    destruct (conn_ExecContext drv ctx insertSQL [Sum u] db1) as [db2 [e|]] eqn:Hinsert;
      simpl; [done|].
    unfold bind at 1, appendApplied. simpl. intros Hrest.
    apply IH in Hrest as [Hmono Hall]; [|intros v Hv; apply Hsafe; by right].
    simpl in Hmono.
    assert (recorded (wdb w) ⊆ recorded db1) as H1.
    { eapply exec_body_mono; [|exact Hbody]. apply Hsafe. by left. }
    assert (recorded db1 ⊆ recorded db2) as H2 by (by eapply exec_insert_mono).
    split; [by etrans; [|etrans]|].
    intros v [->|Hv]%elem_of_cons; [|by apply Hall].
    apply Hmono. by eapply (ts_inserted _ _ _ Hts).
Qed.

(** When the closure of [Migrate] returns no error, the checksum of every
    loaded migration is in [flits]. *)
Lemma criticalSection_records (migrations : gmap string migration)
    (range : gmap string migration -> list (string * migration))
    (ctx : context) (w w' : World DB) :
  WellKeyed migrations -> RangeOrder range ->
  (forall k u, migrations !! k = Some u -> safe (SQL u)) ->
  criticalSection drv migrations range ctx w = (w', Ret None) ->
  forall k u, migrations !! k = Some u -> k ∈ recorded (wdb w').
Proof.
  intros Hwk Hrange Hsafe. unfold criticalSection, bind at 1.
  rewrite ExecContext_eq.
  destruct (conn_ExecContext drv ctx createSQL [] (wdb w)) as [db1 [e|]] eqn:Hcreate;
    simpl; [done|].
  unfold bind at 1, getCompletedMigrations, bind at 1. rewrite QueryContext_eq. simpl.
  destruct (conn_QueryContext drv ctx selectSQL db1) as [db2 [rows|e]] eqn:Hselect;
    simpl; [|done].
  pose proof (scanRows_spec (rowsItems rows) []) as Hscan.
  destruct (scanRows (rowsItems rows) []) as [completed|e]; [|done].
  destruct Hscan as (_ & scanned & -> & Hscanned). simpl.
  destruct (rowsErr rows); [done|]. simpl. intros Hloop k u Hk.
  apply applyPending_records in Hloop as [Hmono Hall].
  2: { intros v Hv. rewrite SortFunc_perm in Hv.
       apply (collectPending_spec _ _ _ _ Hrange) in Hv as (k' & Hk' & _). eauto. }
  simpl in Hmono.
  destruct (decide (k ∈ scanned)) as [Hin|Hnotin].
  - apply Hmono. eapply query_mono; [exact Hselect|].
    eapply (ts_select_sound _ _ _ Hts); [exact Hselect|]. by apply Hscanned.
  - destruct (Hwk k u Hk) as [<- _]. apply Hall.
    rewrite SortFunc_perm. apply (collectPending_spec _ _ _ _ Hrange). eauto.
Qed.

(** With every checksum in [flits], the closure of [Migrate] reads the table
    and applies nothing. *)
Lemma criticalSection_nothing_pending (migrations : gmap string migration)
    (range : gmap string migration -> list (string * migration))
    (ctx : context) (w : World DB) (dbB dbC : DB) (rows : Rows) :
  RangeOrder range ->
  (forall k u, migrations !! k = Some u -> k ∈ recorded (wdb w)) ->
  conn_ExecContext drv ctx createSQL [] (wdb w) = (dbB, None) ->
  conn_QueryContext drv ctx selectSQL dbB = (dbC, inl rows) ->
  rowsErr rows = None -> (forall e, inr e ∉ rowsItems rows) ->
  criticalSection drv migrations range ctx w
  = (MkWorld dbC (wmu w) (wapplied w)
       (wlog w ++ [EvExec AtCreate createSQL [] None;
                   EvQuery AtSelect selectSQL None]),
     Ret None).
Proof.
  intros Hrange Hrec HB HC Herr Hclean.
  unfold criticalSection, bind at 1. rewrite ExecContext_eq. simpl. rewrite HB. simpl.
  unfold bind at 1, getCompletedMigrations, bind at 1. rewrite QueryContext_eq. simpl.
  rewrite HC. simpl.
  pose proof (scanRows_spec (rowsItems rows) []) as Hscan.
  destruct (scanRows (rowsItems rows) []) as [completed|e];
    [|by apply Hclean in Hscan].
  destruct Hscan as (_ & scanned & -> & Hscanned). rewrite Herr. simpl.
  assert (collectPending scanned (range migrations) = []) as ->.
  { apply elem_of_nil_inv. intros u (k & Hk & Hnotin)%(collectPending_spec _ _ _ _ Hrange).
    apply Hnotin, Hscanned.
    destruct (ts_select_complete _ _ _ Hts ctx dbB dbC rows k HC) as [?|[?|[e He]]];
      [|done|done|by apply Hclean in He].
    eapply exec_create_mono; [exact HB|]. by eapply Hrec. }
  simpl. by rewrite <- !app_assoc.
Qed.

End Idempotence.

(** C4. The slice [Migrate] applies holds exactly the loaded migrations whose
    checksum is not among those read from [flits] during the call.  So,
    under the default guard, on a database whose table [flits] keeps what is
    inserted and where no body removes a checksum: after a call of [Migrate]
    that returned no error, a second call (that reaches the database: its
    connection, CREATE TABLE and SELECT succeed and the rows scan) sends no
    further statement, and returns no name and no error. *)
Theorem Migrate_idempotent {DB : Type} (drv : Driver DB)
    (recorded : DB -> list string) (safe : string -> Prop)
    (m : Migrator DB)
    (range1 range2 : gmap string migration -> list (string * migration))
    (ctx1 ctx2 : context) (w0 w1 : World DB) (applied1 : list string)
    (migrations : gmap string migration) (dbA dbB dbC : DB) (rows : Rows) :
  TrackingStore drv recorded safe ->
  m_guard m = mutexGuard_Guard -> wmu w0 = false ->
  RangeOrder range1 -> RangeOrder range2 ->
  loadMigrations m = inl migrations ->
  (forall k u, migrations !! k = Some u -> safe (SQL u)) ->
  Migrate drv m range1 ctx1 w0 = (w1, Ret (applied1, None)) ->
  db_Conn drv ctx2 (wdb w1) = (dbA, None) ->
  conn_ExecContext drv ctx2 createSQL [] dbA = (dbB, None) ->
  conn_QueryContext drv ctx2 selectSQL dbB = (dbC, inl rows) ->
  rowsErr rows = None -> (forall e, inr e ∉ rowsItems rows) ->
  (forall completed u,
     u ∈ slices_SortFunc (collectPending completed (range2 migrations)) byName <->
     exists k, migrations !! k = Some u /\ k ∉ completed) /\
  Migrate drv m range2 ctx2 w1
    = (MkWorld (conn_Close drv dbC) false []
         (wlog w1 ++ [EvConn None; EvExec AtCreate createSQL [] None;
                      EvQuery AtSelect selectSQL None; EvClose]),
       Ret ([], None)).
Proof.
  intros Hts Hguard Hmu Hrange1 Hrange2 Hload Hsafe Hrun1 HA HB HC Herr Hclean.
  pose proof (loadMigrations_WellKeyed _ _ Hload) as Hwk.
  split.
  { intros completed u. rewrite SortFunc_perm. by apply collectPending_spec. }
  (* the first call *)
  assert (wmu w1 = false /\
          forall k u, migrations !! k = Some u -> k ∈ recorded (wdb w1)) as [Hmu1 Hrec].
  { unfold Migrate in Hrun1. rewrite Hload, Conn_eq in Hrun1. simpl in Hrun1.
    destruct (db_Conn drv ctx1 (wdb w0)) as [d1 [e|]] eqn:Hconn; simpl in Hrun1;
      [done|].
    rewrite Hguard in Hrun1. unfold mutexGuard_Guard in Hrun1. simpl in Hrun1.
    rewrite Hmu in Hrun1.
    match type of Hrun1 with context [criticalSection _ _ _ _ ?w] =>
      destruct (criticalSection drv migrations range1 ctx1 w) as [wc oc] eqn:Hcs end.
    pose proof Hcs as (Hheld & Hout & _)%criticalSection_run. simpl in Hheld.
    unfold Unlock in Hrun1. rewrite Hheld in Hrun1.
    destruct oc as [[err|]|p|]; simpl in Hrun1; try done.
    injection Hrun1 as <- <-. simpl. split; [done|].
    intros k u Hk. apply (ts_close _ _ _ Hts).
    by eapply (criticalSection_records drv recorded safe Hts _ _ _ _ _ Hwk Hrange1 Hsafe Hcs). }
  (* the second call *)
  unfold Migrate. rewrite Hload, Conn_eq. simpl. rewrite HA, Hguard. simpl.
  unfold mutexGuard_Guard. simpl. rewrite Hmu1.
  rewrite (criticalSection_nothing_pending drv recorded safe Hts migrations range2
             ctx2 _ dbB dbC rows Hrange2); simpl; try done.
  - unfold Close, logEvent. simpl. by rewrite <- !app_assoc.
  - intros k u Hk. eapply conn_mono; [exact Hts|exact HA|]. by eapply Hrec.
Qed.

(** The in-memory database keeps its table [flits] whatever it is sent. *)
Lemma MemDB_tracking (rejects : string -> option error) :
  TrackingStore (MemDB.driver rejects) MemDB.recorded (fun _ => True).
Proof.
  assert (forall ctx sql args db,
            MemDB.recorded db ⊆ MemDB.recorded (MemDB.exec rejects ctx sql args db).1)
    as Hexec.
  { intros ctx sql args [fl ex]. unfold MemDB.exec, MemDB.recorded. simpl.
    destruct (ctxErr ctx); [done|]. destruct (rejects sql); [done|].
    destruct (String.eqb sql createSQL); [by destruct fl|].
    destruct (String.eqb sql insertSQL).
    - destruct fl as [l|]; [|done]. destruct args as [|s [|]]; try done.
      destruct (slices_Contains l s); [done|]. simpl.
      intros x Hx. apply elem_of_app. by left.
    - by destruct (String.eqb sql lockSQL || String.eqb sql releaseSQL). }
  assert (forall ctx sql db, (MemDB.query rejects ctx sql db).1 = db) as Hquery.
  { intros ctx sql [fl ex]. unfold MemDB.query. simpl.
    destruct (ctxErr ctx); [done|]. destruct (rejects sql); [done|].
    destruct fl; [|done]. by destruct (String.eqb sql selectSQL). }
  assert (forall ctx db db' rows,
            MemDB.query rejects ctx selectSQL db = (db', inl rows) ->
            rowsItems rows = inl <$> MemDB.recorded db) as Hrows.
  { intros ctx [fl ex] db' rows. unfold MemDB.query, MemDB.recorded. simpl.
    destruct (ctxErr ctx); [done|]. destruct (rejects selectSQL); [done|].
    destruct fl; [|done]. simpl. by intros [= <- <-]. }
  split; simpl.
  - done.
  - done.
  - intros. apply Hexec.
  - intros. by rewrite Hquery.
  - intros. apply Hexec.
  - intros. apply Hexec.
  - intros ctx s [fl ex] db'. unfold MemDB.exec, MemDB.recorded. simpl.
    destruct (ctxErr ctx); [done|]. destruct (rejects insertSQL); [done|].
    simpl. destruct fl as [l|]; [|done].
    destruct (slices_Contains l s); [done|]. intros [= <-]. simpl.
    apply elem_of_app. right. by left.
  - intros ctx db db' rows s Hq Hin. rewrite (Hrows _ _ _ _ Hq) in Hin.
    apply list_elem_of_fmap in Hin as (s' & [= ->] & Hin). done.
  - intros ctx db db' rows s Hq Hin. left. rewrite (Hrows _ _ _ _ Hq).
    by apply list_elem_of_fmap_2.
Qed.

(** The directory of the example, twice in a row. *)
Lemma Migrate_idempotent_witness :
  let drv := MemDB.driver MemDB.accepts in
  let m := New exampleFS [] in
  let ms := match loadMigrations m with inl ms => ms | inr _ => ∅ end in
  let w1 := (Migrate drv m map_to_list MemDB.background MemDB.fresh).1 in
  (forall completed u,
     u ∈ slices_SortFunc (collectPending completed (map_to_list ms)) byName <->
     exists k, ms !! k = Some u /\ k ∉ completed) /\
  Migrate drv m map_to_list MemDB.background w1
    = (MkWorld (wdb w1) false []
         (wlog w1 ++ [EvConn None; EvExec AtCreate createSQL [] None;
                      EvQuery AtSelect selectSQL None; EvClose]),
       Ret ([], None)).
Proof.
  intros drv m ms w1.
  apply (Migrate_idempotent drv MemDB.recorded (fun _ => True) m
           map_to_list map_to_list MemDB.background MemDB.background
           MemDB.fresh w1 ["001-first.sql"; "002-second.sql"] ms
           (wdb w1) (wdb w1) (wdb w1)
           {| rowsItems := [inl (fingerprint "001-first.sql");
                            inl (fingerprint "002-second.sql")];
              rowsErr := None |}).
  - apply MemDB_tracking.
  - reflexivity.
  - reflexivity.
  - intros x. reflexivity.
  - intros x. reflexivity.
  - vm_compute. reflexivity.
  - done.
  - vm_compute. reflexivity.
  - reflexivity.
  - vm_compute. reflexivity.
  - vm_compute. reflexivity.
  - reflexivity.
  - intros e [[=]|[[=]|[]%elem_of_nil]%elem_of_cons]%elem_of_cons.
Defined.

(** The same under [GuardMySQL], when the two lock statements leave [flits]
    alone and go through in the second call. *)
Lemma Migrate_twice_under_GuardMySQL {DB : Type} (drv : Driver DB)
    (recorded : DB -> list string) (safe : string -> Prop)
    (m : Migrator DB)
    (range1 range2 : gmap string migration -> list (string * migration))
    (ctx1 ctx2 : context) (w0 w1 : World DB) (applied1 : list string)
    (migrations : gmap string migration) (dbA dbL dbB dbC dbR : DB) (rows : Rows) :
  TrackingStore drv recorded safe ->
  m_guard m = GuardMySQL drv -> safe lockSQL -> safe releaseSQL ->
  RangeOrder range1 -> RangeOrder range2 ->
  loadMigrations m = inl migrations ->
  (forall k u, migrations !! k = Some u -> safe (SQL u)) ->
  Migrate drv m range1 ctx1 w0 = (w1, Ret (applied1, None)) ->
  db_Conn drv ctx2 (wdb w1) = (dbA, None) ->
  conn_ExecContext drv ctx2 lockSQL [] dbA = (dbL, None) ->
  conn_ExecContext drv ctx2 createSQL [] dbL = (dbB, None) ->
  conn_QueryContext drv ctx2 selectSQL dbB = (dbC, inl rows) ->
  rowsErr rows = None -> (forall e, inr e ∉ rowsItems rows) ->
  conn_ExecContext drv ctx2 releaseSQL [] dbC = (dbR, None) ->
  Migrate drv m range2 ctx2 w1
    = (MkWorld (conn_Close drv dbR) (wmu w1) []
         (wlog w1 ++ [EvConn None; EvExec AtLock lockSQL [] None;
                      EvExec AtCreate createSQL [] None;
                      EvQuery AtSelect selectSQL None;
                      EvExec AtRelease releaseSQL [] None; EvClose]),
       Ret ([], None)).
Proof.
  intros Hts Hguard Hlock Hrelease Hrange1 Hrange2 Hload Hsafe Hrun1
    HA HL HB HC Herr Hclean HR.
  pose proof (loadMigrations_WellKeyed _ _ Hload) as Hwk.
  assert (forall k u, migrations !! k = Some u -> k ∈ recorded (wdb w1)) as Hrec.
  { unfold Migrate in Hrun1. rewrite Hload, Conn_eq in Hrun1. simpl in Hrun1.
    destruct (db_Conn drv ctx1 (wdb w0)) as [d1 [e|]] eqn:Hconn; simpl in Hrun1;
      [done|].
    rewrite Hguard in Hrun1. unfold GuardMySQL, bind at 1 in Hrun1.
    rewrite ExecContext_eq in Hrun1. simpl in Hrun1.
    destruct (conn_ExecContext drv ctx1 lockSQL [] d1) as [d2 [e|]] eqn:Hl;
      simpl in Hrun1; [done|].
    match type of Hrun1 with context [criticalSection _ _ _ _ ?w] =>
      destruct (criticalSection drv migrations range1 ctx1 w) as [wc oc] eqn:Hcs end.
    rewrite ExecContext_eq in Hrun1.
    destruct (conn_ExecContext drv ctx1 releaseSQL [] (wdb wc)) as [d3 re] eqn:Hr.
    destruct oc as [[err|]|p|]; simpl in Hrun1; try done.
    destruct re as [e|]; [done|]. injection Hrun1 as <- <-. simpl.
    intros k u Hk. apply (ts_close _ _ _ Hts).
    eapply exec_body_mono; [exact Hts|exact Hrelease|exact Hr|].
    by eapply (criticalSection_records drv recorded safe Hts _ _ _ _ _ Hwk Hrange1 Hsafe Hcs). }
  unfold Migrate. rewrite Hload, Conn_eq. simpl. rewrite HA, Hguard. simpl.
  unfold GuardMySQL, bind at 1. rewrite ExecContext_eq. simpl. rewrite HL. simpl.
  rewrite (criticalSection_nothing_pending drv recorded safe Hts migrations range2
             ctx2 _ dbB dbC rows Hrange2); simpl; try done.
  - rewrite ExecContext_eq. simpl. rewrite HR. simpl.
    unfold Close, logEvent. simpl. by rewrite <- !app_assoc.
  - intros k u Hk. eapply exec_body_mono; [exact Hts|exact Hlock|exact HL|].
    eapply conn_mono; [exact Hts|exact HA|]. by eapply Hrec.
Qed.

(** The test [TestMultipleRuns]: a directory, then a superset of it, then
    the superset again. *)
Example Migrate_multiple_runs :
  let first := MemDB.dirFS [("001-first.sql", "CREATE TABLE t(id INT)")] in
  let w1 := (migrateMem MemDB.accepts first [] MemDB.fresh).1 in
  let w2 := (migrateMem MemDB.accepts exampleFS [] w1).1 in
  (migrateMem MemDB.accepts first [] MemDB.fresh).2 = Ret (["001-first.sql"], None) /\
  (migrateMem MemDB.accepts exampleFS [] w1).2 = Ret (["002-second.sql"], None) /\
  (migrateMem MemDB.accepts exampleFS [] w2).2 = Ret ([], None).
Proof. vm_compute. done. Qed.

(** After the failure of the third of five migrations and its repair, the
    next call applies the last three and not the first two. *)
Example Migrate_resumes_after_repair :
  let w1 := (migrateMem (MemDB.rejecting "CREATE TABLE c(id INT" (ErrBase "syntax error"))
               fiveFS [] MemDB.fresh).1 in
  let repaired :=
    MemDB.dirFS [("001.sql", "CREATE TABLE a(id INT)");
                 ("002.sql", "CREATE TABLE b(id INT)");
                 ("003.sql", "CREATE TABLE c(id INT)");
                 ("004.sql", "CREATE TABLE d(id INT)");
                 ("005.sql", "CREATE TABLE e(id INT)")] in
  (migrateMem MemDB.accepts repaired [] w1).2
  = Ret (["003.sql"; "004.sql"; "005.sql"], None).
Proof. vm_compute. done. Qed.

(** ** The command [flit new] *)

Lemma appendInt_two (x : Z) : 0 <= x <= 99 -> Cmd.appendInt x 2 = Cmd.two x.
Proof.
  intros Hx.
  assert (forallb (fun x => String.eqb (Cmd.appendInt x 2) (Cmd.two x)) (seqZ 0 100)
          = true) as Hall by (vm_compute; reflexivity).
  rewrite forallb_forall in Hall. apply String.eqb_eq, Hall.
  apply list_elem_of_In, elem_of_seqZ. lia.
Qed.

Lemma appendInt_four (x : Z) : 0 <= x <= 9999 -> Cmd.appendInt x 4 = Cmd.four x.
Proof.
  intros Hx.
  assert (forallb (fun x => String.eqb (Cmd.appendInt x 4) (Cmd.four x)) (seqZ 0 10000)
          = true) as Hall by (vm_compute; reflexivity).
  rewrite forallb_forall in Hall. apply String.eqb_eq, Hall.
  apply list_elem_of_In, elem_of_seqZ. lia.
Qed.

Lemma Format_layout (t : Cmd.Time) :
  Cmd.ValidTime t ->
  Cmd.Format t = Cmd.YYYYMMDDHHMMSS t /\ String.length (Cmd.Format t) = 14%nat.
Proof.
  intros (Hy & Hmo & Hd & Hh & Hmi & Hs).
  assert (Cmd.Format t = Cmd.YYYYMMDDHHMMSS t) as ->.
  { unfold Cmd.Format, Cmd.YYYYMMDDHHMMSS.
    rewrite appendInt_four by lia. by rewrite !appendInt_two by lia. }
  done.
Qed.

(** C9. [flit] called with anything but [new MIGRATION-DIR] writes the usage
    line to standard error and exits with status 2, which is not the status
    1 of the other failures (the directory cannot be read, is not a
    directory, the file cannot be written).  Called as [new dir] on a
    directory, it writes an empty file [dir/<stamp>-new-migration.sql],
    [stamp] being the current time as YYYYMMDDHHMMSS, prints that path and
    exits with status 0. *)
Theorem flit_new_command (os : Cmd.OS) :
  ((forall prog dir, Cmd.os_Args os <> [prog; "new"; dir]) ->
   Cmd.main os
   = (Cmd.MkEffects "" ("usage: flit new MIGRATION-DIR" +:+ Cmd.newline) [], 2)) /\
  (forall prog dir, Cmd.os_Args os = [prog; "new"; dir] ->
     let path := Cmd.filepath_Join os dir
                   (Cmd.Format (Cmd.time_Now os) +:+ "-new-migration.sql") in
     (forall err, Cmd.os_Stat os dir = inr err ->
        Cmd.main os
        = (Cmd.MkEffects "" ("flit: " +:+ Error err +:+ Cmd.newline) [], 1)) /\
     (Cmd.os_Stat os dir = inl false ->
        (Cmd.main os).2 = 1 /\ Cmd.written (Cmd.main os).1 = []) /\
     (forall err, Cmd.os_Stat os dir = inl true ->
        Cmd.os_WriteFile os path "" Cmd.perm0644 = Some err ->
        Cmd.main os
        = (Cmd.MkEffects "" ("flit: " +:+ Error err +:+ Cmd.newline) [], 1)) /\
     (Cmd.os_Stat os dir = inl true ->
      Cmd.os_WriteFile os path "" Cmd.perm0644 = None ->
      Cmd.stdout_Write os (path +:+ Cmd.newline) = None ->
      Cmd.main os
      = (Cmd.MkEffects (path +:+ Cmd.newline) "" [(path, "", Cmd.perm0644)], 0))) /\
  (Cmd.ValidTime (Cmd.time_Now os) ->
   Cmd.Format (Cmd.time_Now os) = Cmd.YYYYMMDDHHMMSS (Cmd.time_Now os) /\
   String.length (Cmd.Format (Cmd.time_Now os)) = 14%nat) /\
  (2 : Z) <> 1.
Proof.
  split; [|split; [|split; [apply Format_layout|done]]].
  - intros Hargs. unfold Cmd.main, Cmd.run.
    destruct (Cmd.os_Args os) as [|prog [|cmd [|dir [|extra rest]]]]; try done.
    destruct (String.eqb_spec cmd "new") as [->|Hne]; [|done].
    by destruct (Hargs prog dir).
  - intros prog dir Hargs path. unfold Cmd.main, Cmd.run. rewrite Hargs. simpl.
    repeat split.
    + by intros err ->.
    + by destruct (Cmd.os_Stat os dir) as [[]|]; try done; intros [=].
    + by destruct (Cmd.os_Stat os dir) as [[]|]; try done; intros [=].
    + intros err -> Hwrite. fold path. by rewrite Hwrite.
    + intros -> Hwrite Hprint. fold path. by rewrite Hwrite, Hprint.
Qed.

Lemma flit_new_command_witness :
  Cmd.main (Cmd.plainOS ["flit"; "new"; "migrations"]
              (Cmd.Build_Time 2026 10 30 7 5 9) ["migrations"])
  = (Cmd.MkEffects
       ("migrations/20261030070509-new-migration.sql" +:+ Cmd.newline) ""
       [("migrations/20261030070509-new-migration.sql", "", Cmd.perm0644)], 0) /\
  Cmd.main (Cmd.plainOS ["flit"; "migrations"]
              (Cmd.Build_Time 2026 10 30 7 5 9) ["migrations"])
  = (Cmd.MkEffects "" ("usage: flit new MIGRATION-DIR" +:+ Cmd.newline) [], 2).
Proof.
  split.
  - destruct (flit_new_command
                (Cmd.plainOS ["flit"; "new"; "migrations"]
                   (Cmd.Build_Time 2026 10 30 7 5 9) ["migrations"]))
      as (_ & Hnew & _).
    destruct (Hnew "flit" "migrations" eq_refl) as (_ & _ & _ & Hok).
    apply Hok; reflexivity.
  - destruct (flit_new_command
                (Cmd.plainOS ["flit"; "migrations"]
                   (Cmd.Build_Time 2026 10 30 7 5 9) ["migrations"]))
      as (Husage & _).
    apply Husage. intros prog dir. discriminate.
Defined.
